(** * FileForge: a shallow embedding of FileForge.go and its properties

    The development follows the order of the source file: the machine
    integers of Go, the buffer sizer ([getOptimalBufferSize]), the size
    parser ([parseSize]) with the parts of [strings] and [strconv] it calls,
    the file writer ([createRandomFile]) over an explicit world, the worker
    loop, the producer and progress monitor of [createRandomDataFiles], and
    the validation done by [main]. *)

From Stdlib Require Import ZArith Ascii DecimalString DecimalPos DecimalZ.
From stdpp Require Import base tactics numbers list gmap strings.

Local Open Scope Z_scope.

(** ** Go's [int] on the amd64 targets of the build scripts: 64 bits,
    two's complement, silent wrap-around *)

Module GoInt.

Definition min_int : Z := - 2 ^ 63.
Definition max_int : Z := 2 ^ 63 - 1.

Definition in_range (z : Z) : Prop := min_int <= z <= max_int.

(** Reduction of a mathematical integer to its 64-bit signed value. *)
Definition wrap (z : Z) : Z := (z + 2 ^ 63) mod 2 ^ 64 - 2 ^ 63.

Definition add (a b : Z) : Z := wrap (a + b).
Definition sub (a b : Z) : Z := wrap (a - b).
Definition mul (a b : Z) : Z := wrap (a * b).

(** Integer division truncates toward zero and panics on a zero divisor;
    [None] is the run-time panic. *)
Definition div (a b : Z) : option Z :=
  if b =? 0 then None else Some (wrap (a ÷ b)).

End GoInt.

(** ** Constants of the source *)

Definition minBufferSize : Z := 256 * 1024.
Definition maxBufferSize : Z := 16 * 1024 * 1024.
Definition defaultFilesPerDir : Z := 10000.

(** ** getOptimalBufferSize

    [syscall.Getpagesize()] is the only input; it is passed as [pageSize]. *)

Definition getOptimalBufferSize (pageSize : Z) : Z :=
  let bufferSize := Z.max (GoInt.mul pageSize 256) (1024 * 1024) in
  if bufferSize <? minBufferSize then minBufferSize
  else if maxBufferSize <? bufferSize then maxBufferSize
  else bufferSize.

(** The clamp the specification speaks of. *)
Definition clamp (x lo hi : Z) : Z := Z.min (Z.max x lo) hi.

(** ** Strings

    A Go string is a sequence of bytes.  The functions of package [strings]
    used by the source are modelled on ASCII text: case mapping touches the
    letters a-z only and white space is the six ASCII space characters. *)

Abbreviation gostring := (list ascii).

Definition str (s : string) : gostring := String.list_ascii_of_string s.

Definition code (c : ascii) : Z := Z.of_N (N_of_ascii c).

Definition isASCII (s : gostring) : Prop := Forall (λ c, code c < 128) s.

Module strings.

Definition isSpace (c : ascii) : bool :=
  let n := code c in ((9 <=? n) && (n <=? 13)) || (n =? 32).

Definition inCutset (cutset : gostring) (c : ascii) : bool :=
  bool_decide (c ∈ cutset).

Fixpoint trimLeftFunc (f : ascii → bool) (s : gostring) : gostring :=
  match s with
  | c :: s' => if f c then trimLeftFunc f s' else s
  | [] => []
  end.

Definition trimRightFunc (f : ascii → bool) (s : gostring) : gostring :=
  reverse (trimLeftFunc f (reverse s)).

Definition TrimFunc (f : ascii → bool) (s : gostring) : gostring :=
  trimRightFunc f (trimLeftFunc f s).

Definition Trim (s cutset : gostring) : gostring :=
  TrimFunc (inCutset cutset) s.

Definition TrimSpace (s : gostring) : gostring := TrimFunc isSpace s.

Definition upper (c : ascii) : ascii :=
  let n := code c in
  if (97 <=? n) && (n <=? 122) then ascii_of_N (Z.to_N (n - 32)) else c.

Definition ToUpper (s : gostring) : gostring := map upper s.

(** [len(s) >= len(suffix) && s[len(s)-len(suffix):] == suffix] *)
Definition HasSuffix (s suffix : gostring) : bool :=
  bool_decide (length suffix ≤ length s)%nat
  && bool_decide (drop (length s - length suffix) s = suffix).

Definition TrimSuffix (s suffix : gostring) : gostring :=
  if HasSuffix s suffix then take (length s - length suffix) s else s.

End strings.

(** ** strconv.Atoi

    [Atoi(s)] is [ParseInt(s, 10, 0)] converted to [int]: an optional sign,
    then decimal digits accumulated in an unsigned 64-bit register with the
    overflow tests of [ParseUint], then the signed range test. *)

Module strconv.

Inductive NumError := ErrSyntax | ErrRange.

Definition maxUint64 : Z := 2 ^ 64 - 1.
Definition cutoff : Z := maxUint64 `div` 10 + 1.

Definition digit (c : ascii) : option Z :=
  let n := code c in
  if (48 <=? n) && (n <=? 57) then Some (n - 48) else None.

Fixpoint parseUintLoop (s : gostring) (n : Z) : Z + NumError :=
  match s with
  | [] => inl n
  | c :: s' =>
    match digit c with
    | None => inr ErrSyntax
    | Some d =>
      if cutoff <=? n then inr ErrRange
      else
        let n := n * 10 in
        let n1 := n + d in
        if maxUint64 <? n1 then inr ErrRange else parseUintLoop s' n1
    end
  end.

Definition ParseUint (s : gostring) : Z + NumError :=
  match s with
  | [] => inr ErrSyntax
  | _ => parseUintLoop s 0
  end.

Definition ParseInt (s : gostring) : Z + NumError :=
  match s with
  | [] => inr ErrSyntax
  | c :: s' =>
    let neg := bool_decide (c = "-"%char) in
    let s := if bool_decide (c = "+"%char) || neg then s' else s in
    match ParseUint s with
    | inr e => inr e
    | inl un =>
      let cut := 2 ^ 63 in
      if negb neg && (cut <=? un) then inr ErrRange
      else if neg && (cut <? un) then inr ErrRange
      else inl (if neg then - un else un)
    end
  end.

Definition Atoi (s : gostring) : Z + NumError := ParseInt s.

End strconv.

(** ** parseSize *)

Inductive ParseError :=
  | InvalidFormat
  | InvalidNumber (e : strconv.NumError)
  | UnsupportedUnit (unit : gostring).

Definition units : list gostring :=
  Eval cbv in
    map str ["GB"; "MB"; "KB"; "B"; "GIGABYTE"; "MEGABYTE"; "KILOBYTE"; "BYTE";
             "GIGABYTES"; "MEGABYTES"; "KILOBYTES"; "BYTES"].

Definition quotes : gostring := [ascii_of_nat 39; ascii_of_nat 34].

(** Lines 58-59: the normalised input. *)
Definition normalize (sizeStr : gostring) : gostring :=
  let sizeStr := strings.Trim sizeStr quotes in
  strings.ToUpper (strings.TrimSpace sizeStr).

(** Lines 68-75: the first unit of the list that is a suffix, with the
    trimmed text before it; [None] when the loop ends with [found] false. *)
Fixpoint findUnit (sizeStr : gostring) (us : list gostring)
  : option (gostring * gostring) :=
  match us with
  | [] => None
  | u :: us' =>
    if strings.HasSuffix sizeStr u
    then Some (strings.TrimSpace (strings.TrimSuffix sizeStr u), u)
    else findUnit sizeStr us'
  end.

Definition unitIn (unit : gostring) (cases : list string) : bool :=
  bool_decide (unit ∈ map str cases).

Definition parseSize (sizeStr : gostring) : Z + ParseError :=
  let sizeStr := normalize sizeStr in
  match findUnit sizeStr units with
  | None => inr InvalidFormat
  | Some (value, unit) =>
    match strconv.Atoi value with
    | inr err => inr (InvalidNumber err)
    | inl numValue =>
      if unitIn unit ["B"; "BYTE"; "BYTES"] then inl numValue
      else if unitIn unit ["KB"; "KILOBYTE"; "KILOBYTES"] then
        inl (GoInt.mul numValue 1024)
      else if unitIn unit ["MB"; "MEGABYTE"; "MEGABYTES"] then
        inl (GoInt.mul (GoInt.mul numValue 1024) 1024)
      else if unitIn unit ["GB"; "GIGABYTE"; "GIGABYTES"] then
        inl (GoInt.mul (GoInt.mul (GoInt.mul numValue 1024) 1024) 1024)
      else inr (UnsupportedUnit unit)
    end
  end.


(** ** fmt.Sprintf

    The only verbs of the source are [%s] and [%d]; [%d] prints a signed
    decimal numeral. *)

Module fmt.

Definition d (z : Z) : gostring := str (NilZero.string_of_int (Z.to_int z)).

End fmt.

(** ** The path of a file index (lines 206-213 of [createRandomDataFiles])

    [None] is the run-time panic of the division at line 210. *)

Definition filePath (directory : gostring) (i filesPerDir : Z)
    (noSubdirs : bool) : option gostring :=
  if noSubdirs then
    Some (directory ++ str "/file_" ++ fmt.d i ++ str ".bin")
  else
    match GoInt.div i filesPerDir with
    | None => None
    | Some subdirNum =>
      let subDir := directory ++ str "/subdir_" ++ fmt.d subdirNum in
      Some (subDir ++ str "/file_" ++ fmt.d i ++ str ".bin")
    end.

(** ** The world of a run

    The operating system is an oracle: the [k]-th system call of the run
    succeeds or fails with an error text, the entropy source yields the
    [k]-th random byte, and the clock is read at the current call count.
    The world keeps the files on disk, the two counters and the history of
    what the program did. *)

(** The five [fmt.Errorf] of [createRandomFile]; [errMsg] is the text. *)
Inductive ErrKind :=
  | DirectoryCreateError
  | FileCreateError
  | RandomSourceError
  | WriteError
  | FlushError.

Record GoError := { errKind : ErrKind; errMsg : gostring }.

(** The history: entry into [createRandomFile] with its arguments, a chunk
    handed to the buffered writer, the value [createRandomFile] returned to
    the worker, a line printed, a value sent on [progress]. *)
Inductive Event :=
  | EvCall (path : gostring) (fileSize bufferSize : Z)
  | EvChunk (path : gostring) (chunkSize : Z)
  | EvReturn (path : gostring) (err : option GoError)
  | EvPrint (line : gostring)
  | EvSend (v : Z).

Record Env := {
  fault : nat → option gostring;
  entropy : nat → Byte.byte;
  clock : nat → Z;
}.

Record World := {
  files : gmap gostring (list Byte.byte);
  ticks : nat;
  drawn : nat;
  trace : list Event;
}.

Definition emptyWorld : World :=
  {| files := ∅; ticks := 0; drawn := 0; trace := [] |}.

Definition setFiles (f : gmap gostring (list Byte.byte)) (w : World) : World :=
  {| files := f; ticks := ticks w; drawn := drawn w; trace := trace w |}.

Definition record (e : Event) (w : World) : World :=
  {| files := files w; ticks := ticks w; drawn := drawn w;
     trace := trace w ++ [e] |}.

(** What a piece of code does: it returns, it panics, or it is still running
    when the fuel of the model is spent. *)
Inductive Outcome (A : Type) :=
  | Ret (a : A)
  | Panic
  | OutOfFuel.
Arguments Ret {A} a.
Arguments Panic {A}.
Arguments OutOfFuel {A}.

Record Writer := { wrPath : gostring; wrSize : Z; wrBuf : list Byte.byte }.

Definition len {A} (l : list A) : Z := Z.of_nat (length l).

Section IO.

Context (env : Env).

(** One system call: consult the oracle and advance the call counter. *)
Definition sysCall (w : World) : option gostring * World :=
  (fault env (ticks w),
   {| files := files w; ticks := S (ticks w); drawn := drawn w;
      trace := trace w |}).

Definition MkdirAll (w : World) : option gostring * World := sysCall w.

(** [os.Create] truncates or creates the file. *)
Definition Create (path : gostring) (w : World) : option gostring * World :=
  match sysCall w with
  | (Some e, w') => (Some e, w')
  | (None, w') => (None, setFiles (<[path := []]> (files w')) w')
  end.

Definition fileWrite (path : gostring) (p : list Byte.byte) (w : World)
  : option gostring * World :=
  match sysCall w with
  | (Some e, w') => (Some e, w')
  | (None, w') =>
    (None, setFiles (<[path := default [] (files w' !! path) ++ p]> (files w')) w')
  end.

(** [crypto/rand.Read(b)] fills the whole of [b] or fails. *)
Definition randRead (n : Z) (w : World) : (list Byte.byte + gostring) * World :=
  match sysCall w with
  | (Some e, w') => (inr e, w')
  | (None, w') =>
    (inl (map (entropy env) (seq (drawn w') (Z.to_nat n))),
     {| files := files w'; ticks := ticks w';
        drawn := drawn w' + Z.to_nat n; trace := trace w' |})
  end.

(** [bufio.NewWriterSize]: a non-positive size selects the default. *)
Definition NewWriterSize (path : gostring) (size : Z) : Writer :=
  {| wrPath := path; wrSize := if size <=? 0 then 4096 else size; wrBuf := [] |}.

Definition bufFlush (b : Writer) (w : World) : option gostring * Writer * World :=
  match wrBuf b with
  | [] => (None, b, w)
  | _ =>
    match fileWrite (wrPath b) (wrBuf b) w with
    | (Some e, w') => (Some e, b, w')
    | (None, w') =>
      (None, {| wrPath := wrPath b; wrSize := wrSize b; wrBuf := [] |}, w')
    end
  end.

(** [bufio.Writer.Write]: data that fits is copied into the buffer; otherwise
    an empty buffer is bypassed and a partly filled one is topped up and
    flushed first. *)
Definition bufWrite (b : Writer) (p : list Byte.byte) (w : World)
  : option gostring * Writer * World :=
  let avail := wrSize b - len (wrBuf b) in
  if len p <=? avail then
    (None, {| wrPath := wrPath b; wrSize := wrSize b; wrBuf := wrBuf b ++ p |}, w)
  else
    match wrBuf b with
    | [] =>
      match fileWrite (wrPath b) p w with
      | (Some e, w') => (Some e, b, w')
      | (None, w') => (None, b, w')
      end
    | _ =>
      let n := Z.to_nat avail in
      let full :=
        {| wrPath := wrPath b; wrSize := wrSize b; wrBuf := wrBuf b ++ take n p |} in
      match bufFlush full w with
      | (Some e, b', w') => (Some e, b', w')
      | (None, b', w') =>
        let rest := drop n p in
        if len rest <=? wrSize b' then
          (None, {| wrPath := wrPath b'; wrSize := wrSize b'; wrBuf := rest |}, w')
        else
          match fileWrite (wrPath b') rest w' with
          | (Some e, w'') => (Some e, b', w'')
          | (None, w'') => (None, b', w'')
          end
      end
    end.

Definition Errorf (k : ErrKind) (parts : list gostring) : GoError :=
  {| errKind := k; errMsg := concat parts |}.

(** Lines 123-137: the chunk loop.  [buffer] is the reusable slice of
    [bufferSize] bytes; each round overwrites its first [chunkSize] bytes. *)
Fixpoint chunkLoop (fuel : nat) (path : gostring) (bufferSize remaining : Z)
    (buffer : list Byte.byte) (b : Writer) (w : World)
  : Outcome (option GoError) * Writer * World :=
  match fuel with
  | O => (OutOfFuel, b, w)
  | S fuel' =>
    if 0 <? remaining then
      let chunkSize := if remaining <? bufferSize then remaining else bufferSize in
      match randRead chunkSize w with
      | (inr e, w1) =>
        (Ret (Some (Errorf RandomSourceError
                      [str "error generating random data: "; e])), b, w1)
      | (inl bytes, w1) =>
        let buffer := bytes ++ drop (Z.to_nat chunkSize) buffer in
        let w1 := record (EvChunk path chunkSize) w1 in
        match bufWrite b (take (Z.to_nat chunkSize) buffer) w1 with
        | (Some e, b2, w2) =>
          (Ret (Some (Errorf WriteError
                        [str "error writing to file "; path; str ": "; e])), b2, w2)
        | (None, b2, w2) =>
          chunkLoop fuel' path bufferSize (GoInt.sub remaining chunkSize)
                    buffer b2 w2
        end
      end
    else (Ret None, b, w)
  end.

(** Lines 103-146.  The allocations of lines 118 and 122 are taken to
    succeed for every size that is not negative: the limit the run-time
    puts on the size of one allocation is not part of the model. *)
Definition createRandomFile (fuel : nat) (path : gostring)
    (fileSize bufferSize : Z) (w : World) : Outcome (option GoError) * World :=
  let w := record (EvCall path fileSize bufferSize) w in
  match MkdirAll w with
  | (Some e, w) =>
    (Ret (Some (Errorf DirectoryCreateError
                  [str "error creating directory for file "; path; str ": "; e])), w)
  | (None, w) =>
    match Create path w with
    | (Some e, w) =>
      (Ret (Some (Errorf FileCreateError
                    [str "error creating file "; path; str ": "; e])), w)
    | (None, w) =>
      let bufWriter := NewWriterSize path bufferSize in
      if bufferSize <? 0 then (Panic, w)
      else
        let buffer := replicate (Z.to_nat bufferSize) Byte.x00 in
        match chunkLoop fuel path bufferSize fileSize buffer bufWriter w with
        | (Ret (Some e), _, w) => (Ret (Some e), w)
        | (Ret None, bufWriter, w) =>
          match bufFlush bufWriter w with
          | (Some e, _, w) =>
            (Ret (Some (Errorf FlushError
                          [str "error flushing buffer to file "; path; str ": "; e])), w)
          | (None, _, w) => (Ret None, w)
          end
        | (Panic, _, w) => (Panic, w)
        | (OutOfFuel, _, w) => (OutOfFuel, w)
        end
    end
  end.

(** Lines 149-161.  [jobs] is the sequence of paths this worker receives
    from the channel before it is closed and drained. *)
Fixpoint worker (fuel : nat) (id : Z) (jobs : list gostring)
    (fileSize bufferSize : Z) (w : World) : Outcome unit * World :=
  match jobs with
  | [] => (Ret (), w)
  | path :: jobs' =>
    let start := clock env (ticks w) in
    match createRandomFile fuel path fileSize bufferSize w with
    | (Ret err, w) =>
      let w := record (EvReturn path err) w in
      let w :=
        match err with
        | Some e =>
          record (EvPrint (str "Worker " ++ fmt.d id ++ str ": " ++ errMsg e
                           ++ [ascii_of_nat 10])) w
        | None => w
        end in
      let elapsed := GoInt.sub (clock env (ticks w)) start in
      let w := record (EvSend fileSize) w in
      let w := record (EvSend elapsed) w in
      worker fuel id jobs' fileSize bufferSize w
    | (Panic, w) => (Panic, w)
    | (OutOfFuel, w) => (OutOfFuel, w)
    end
  end.

End IO.

(** ** createRandomDataFiles: producer, worker start-up, progress monitor *)

(** How the producer goroutine stands: the queue was closed after the loop,
    the division panicked, or the loop is still running. *)
Inductive ProducerState := Closed | Panicked | Producing.

(** Lines 203-216: the paths sent on [jobs], in order. *)
Fixpoint producer (fuel : nat) (directory : gostring)
    (i endNum filesPerDir : Z) (noSubdirs : bool)
  : list gostring * ProducerState :=
  match fuel with
  | O => ([], Producing)
  | S fuel' =>
    if i <=? endNum then
      match filePath directory i filesPerDir noSubdirs with
      | None => ([], Panicked)
      | Some path =>
        let '(sent, st) :=
          producer fuel' directory (GoInt.add i 1) endNum filesPerDir noSubdirs in
        (path :: sent, st)
      end
    else ([], Closed)
  end.

(** Lines 197-200: the arguments [(id, fileSize, bufferSize)] of the
    [numWorkers] goroutines started. *)
Definition startWorkers (numWorkers fileSize bufferSize : Z) : list (Z * Z * Z) :=
  map (λ w, (w, fileSize, bufferSize)) (seqZ 0 numWorkers).

Record Stats := { completed : Z; totalBytes : Z; totalTime : Z }.

Definition noStats : Stats := {| completed := 0; totalBytes := 0; totalTime := 0 |}.

Definition account (size timeTaken : Z) (s : Stats) : Stats :=
  {| completed := GoInt.add (completed s) 1;
     totalBytes := GoInt.add (totalBytes s) size;
     totalTime := GoInt.add (totalTime s) timeTaken |}.

(** Lines 175-194, the integer state of the progress monitor over the values
    received on [progress] until it is closed.  A receive on the closed
    channel yields zero.  The printed rate is floating point and left out. *)
Fixpoint monitor (progress : list Z) (s : Stats) : Stats :=
  match progress with
  | [] => s
  | [size] => account size 0 s
  | size :: timeTaken :: rest => monitor rest (account size timeTaken s)
  end.

(** The values a world's history sent on [progress]. *)
Definition sent (tr : list Event) : list Z :=
  omap (λ e, match e with EvSend v => Some v | _ => None end) tr.

Definition printed (tr : list Event) : list gostring :=
  omap (λ e, match e with EvPrint l => Some l | _ => None end) tr.

Definition calls (tr : list Event) : list (gostring * Z * Z) :=
  omap (λ e, match e with EvCall p f b => Some (p, f, b) | _ => None end) tr.

Definition returns (tr : list Event) : list (gostring * option GoError) :=
  omap (λ e, match e with EvReturn p r => Some (p, r) | _ => None end) tr.

Definition chunks (tr : list Event) : list Z :=
  omap (λ e, match e with EvChunk _ n => Some n | _ => None end) tr.

(** ** main *)

Definition getOptimalWorkerCount (cpus : Z) : Z :=
  let workers := GoInt.add cpus 1 in
  if workers <? 2 then 2 else workers.

(** The command line after [flag.Parse]: [None] is a flag that was not
    given, which leaves the default of its declaration. *)
Record Flags := {
  directoryFlag : option gostring;
  startFlag : option Z;
  endFlag : option Z;
  sizeFlag : option gostring;
  filesPerDirFlag : option Z;
  workersFlag : option Z;
  noSubdirsFlag : option bool;
}.

Record Request := {
  directory : gostring;
  startNum : Z;
  endNum : Z;
  fileSize : Z;
  filesPerDir : Z;
  bufferSize : Z;
  numWorkers : Z;
  noSubdirs : bool;
}.

(** How [main] ends: usage and exit status, the size error and exit status,
    or the call of [createRandomDataFiles]. *)
Inductive MainOutcome :=
  | UsageExit (status : Z)
  | SizeErrorExit (status : Z)
  | Generate (r : Request).

Definition main (pageSize cpus : Z) (f : Flags) : MainOutcome :=
  let bufferSize := getOptimalBufferSize pageSize in
  let directoryPtr := default [] (directoryFlag f) in
  let startNumPtr := default 0 (startFlag f) in
  let endNumPtr := default 0 (endFlag f) in
  let sizePtr := default [] (sizeFlag f) in
  let filesPerDirPtr := default defaultFilesPerDir (filesPerDirFlag f) in
  let numWorkersPtr := default (getOptimalWorkerCount cpus) (workersFlag f) in
  let noSubdirsPtr := default false (noSubdirsFlag f) in
  if bool_decide (directoryPtr = []) || (startNumPtr =? 0) || (endNumPtr =? 0)
     || bool_decide (sizePtr = [])
  then UsageExit 1
  else
    match parseSize sizePtr with
    | inr _ => SizeErrorExit 1
    | inl fileSize =>
      if fileSize <=? 0 then SizeErrorExit 1
      else
        Generate {| directory := directoryPtr; startNum := startNumPtr;
                    endNum := endNumPtr; fileSize := fileSize;
                    filesPerDir := filesPerDirPtr; bufferSize := bufferSize;
                    numWorkers := numWorkersPtr; noSubdirs := noSubdirsPtr |}
    end.

(** The command line with one flag replaced. *)
Definition withStart (v : option Z) (f : Flags) : Flags :=
  {| directoryFlag := directoryFlag f; startFlag := v; endFlag := endFlag f;
     sizeFlag := sizeFlag f; filesPerDirFlag := filesPerDirFlag f;
     workersFlag := workersFlag f; noSubdirsFlag := noSubdirsFlag f |}.

Definition withEnd (v : option Z) (f : Flags) : Flags :=
  {| directoryFlag := directoryFlag f; startFlag := startFlag f; endFlag := v;
     sizeFlag := sizeFlag f; filesPerDirFlag := filesPerDirFlag f;
     workersFlag := workersFlag f; noSubdirsFlag := noSubdirsFlag f |}.

Definition withFilesPerDir (v : option Z) (f : Flags) : Flags :=
  {| directoryFlag := directoryFlag f; startFlag := startFlag f;
     endFlag := endFlag f; sizeFlag := sizeFlag f; filesPerDirFlag := v;
     workersFlag := workersFlag f; noSubdirsFlag := noSubdirsFlag f |}.

Definition withWorkers (v : option Z) (f : Flags) : Flags :=
  {| directoryFlag := directoryFlag f; startFlag := startFlag f;
     endFlag := endFlag f; sizeFlag := sizeFlag f;
     filesPerDirFlag := filesPerDirFlag f; workersFlag := v;
     noSubdirsFlag := noSubdirsFlag f |}.

(** Does [main] reach [createRandomDataFiles]? *)
Definition generates (o : MainOutcome) : bool :=
  match o with Generate _ => true | _ => false end.

(** ** The remaining helpers of the source *)

(** Lines 29-35.  [version] is what [os.ReadFile("VERSION")] returns: the
    text of the file, or an error. *)
Definition getVersion (version : gostring + gostring) : gostring :=
  match version with
  | inr _ => str "unknown"
  | inl version => strings.TrimSpace version
  end.

(** Line 170. *)
Definition totalFiles (startNum endNum : Z) : Z :=
  GoInt.add (GoInt.sub endNum startNum) 1.

(** What [humanReadableSize] prints: [PlainBytes text] is the text of
    [Sprintf("%d B", bytes)]; [Scaled bytes div letter] stands for
    [Sprintf("%.1f %cB", float64(bytes)/float64(div), letter)], whose
    floating-point quotient is kept as its two integer operands. *)
Inductive SizeText :=
  | PlainBytes (text : gostring)
  | Scaled (bytes div : Z) (letter : ascii).

(** Lines 249-253: the loop [for n := bytes / unit; n >= unit; n /= unit]. *)
Fixpoint scaleLoop (fuel : nat) (n div exp : Z) : Outcome (Z * Z) :=
  match fuel with
  | O => OutOfFuel
  | S fuel' =>
    if 1024 <=? n then
      scaleLoop fuel' (n ÷ 1024) (GoInt.mul div 1024) (GoInt.add exp 1)
    else Ret (div, exp)
  end.

(** Lines 244-255.  Indexing the string of unit letters out of range
    panics. *)
Definition humanReadableSize (fuel : nat) (bytes : Z) : Outcome SizeText :=
  if bytes <? 1024 then Ret (PlainBytes (fmt.d bytes ++ str " B"))
  else
    match scaleLoop fuel (bytes ÷ 1024) 1024 0 with
    | Ret (div, exp) =>
      match (if exp <? 0 then None else str "KMGTPE" !! Z.to_nat exp) with
      | Some letter => Ret (Scaled bytes div letter)
      | None => Panic
      end
    | Panic => Panic
    | OutOfFuel => OutOfFuel
    end.

(** ** Vocabulary of the statements *)

(** The chunk sizes the file writer is specified to use: while bytes remain,
    the next chunk is the smaller of the buffer size and what remains. *)
Inductive ChunkSeq (bufferSize : Z) : Z → list Z → Prop :=
  | chunks_done : ChunkSeq bufferSize 0 []
  | chunks_next remaining cs :
      0 < remaining →
      ChunkSeq bufferSize (remaining - Z.min bufferSize remaining) cs →
      ChunkSeq bufferSize remaining (Z.min bufferSize remaining :: cs).

Definition sumZ (l : list Z) : Z := foldr Z.add 0 l.

(** The bytes of a file on disk, empty when there is no such file. *)
Definition onDisk (path : gostring) (w : World) : list Byte.byte :=
  default [] (files w !! path).

(** The file of writer [b] exists and, followed by the bytes still in the
    writer's buffer, reads [data]. *)
Definition Stored (b : Writer) (w : World) (data : list Byte.byte) : Prop :=
  is_Some (files w !! wrPath b) ∧ onDisk (wrPath b) w ++ wrBuf b = data.

(** [sub] occurs in [s] as a contiguous run of bytes. *)
Fixpoint contains (s sub : gostring) : bool :=
  bool_decide (sub `prefix_of` s)
  || match s with
     | [] => false
     | _ :: s' => contains s' sub
     end.

(** The line a worker prints for a failed job (line 155). *)
Definition logLine (id : Z) (e : GoError) : gostring :=
  str "Worker " ++ fmt.d id ++ str ": " ++ errMsg e ++ [ascii_of_nat 10].

(** One job as a worker ran it: the chunks written, what [createRandomFile]
    returned and the time measured. *)
Record JobRun := {
  runChunks : list Z;
  runErr : option GoError;
  runElapsed : Z;
}.

(** The history one job leaves behind. *)
Definition jobEvents (id fileSize bufferSize : Z) (path : gostring)
    (r : JobRun) : list Event :=
  [EvCall path fileSize bufferSize]
  ++ map (EvChunk path) (runChunks r)
  ++ [EvReturn path (runErr r)]
  ++ match runErr r with
     | Some e => [EvPrint (logLine id e)]
     | None => []
     end
  ++ [EvSend fileSize; EvSend (runElapsed r)].

(** What an error returned by [createRandomFile] says: it is the
    random-source error, whose text has no path, or its text has the path
    of the file. *)
Definition Reported (path : gostring) (e : GoError) : Prop :=
  (errKind e = RandomSourceError
   ∧ ∃ os, errMsg e = str "error generating random data: " ++ os)
  ∨ (errKind e ≠ RandomSourceError ∧ contains (errMsg e) path = true).

(** The counters of the progress monitor are machine integers. *)
Definition StatsInRange (s : Stats) : Prop :=
  GoInt.in_range (completed s) ∧ GoInt.in_range (totalBytes s)
  ∧ GoInt.in_range (totalTime s).

(** What one job sends on [progress]: the size, then the time. *)
Definition jobProgress (fileSize : Z) (r : JobRun) : list Z :=
  [fileSize; runElapsed r].

(** The unit list in the order the specification asks for: longer units
    before shorter ones. *)
Definition unitsLongestFirst : list gostring :=
  Eval cbv in
    map str ["GIGABYTES"; "MEGABYTES"; "KILOBYTES"; "GIGABYTE"; "MEGABYTE";
             "KILOBYTE"; "BYTES"; "BYTE"; "GB"; "MB"; "KB"; "B"].

(** No unit of the list is a suffix of a unit that comes after it. *)
Fixpoint earlierNotSuffix (us : list gostring) : bool :=
  match us with
  | [] => true
  | u :: rest =>
    forallb (λ v, negb (bool_decide (u `suffix_of` v))) rest
    && earlierNotSuffix rest
  end.

(** The byte multiplier of a unit. *)
Definition multiplier (unit : gostring) : Z :=
  if unitIn unit ["KB"; "KILOBYTE"; "KILOBYTES"] then 1024
  else if unitIn unit ["MB"; "MEGABYTE"; "MEGABYTES"] then 1024 ^ 2
  else if unitIn unit ["GB"; "GIGABYTE"; "GIGABYTES"] then 1024 ^ 3
  else 1.

Definition isQuote (c : ascii) : bool := strings.inCutset quotes c.

Definition isDigit (c : ascii) : bool := (48 <=? code c) && (code c <=? 57).

(** The number a run of decimal digits stands for, read after [n]. *)
Definition accumulate (s : gostring) (n : Z) : Z :=
  fold_left (λ acc c, acc * 10 + (code c - 48)) s n.

Definition digitsValue (ds : gostring) : Z := accumulate ds 0.

(** A decimal integer as written: digits, with an optional sign. *)
Inductive IntLiteral : gostring → Z → Prop :=
  | lit_unsigned ds :
      ds ≠ [] → Forall (λ c, isDigit c = true) ds →
      IntLiteral ds (digitsValue ds)
  | lit_plus ds :
      ds ≠ [] → Forall (λ c, isDigit c = true) ds →
      IntLiteral ("+"%char :: ds) (digitsValue ds)
  | lit_minus ds :
      ds ≠ [] → Forall (λ c, isDigit c = true) ds →
      IntLiteral ("-"%char :: ds) (- digitsValue ds).

Definition isUpperLetter (c : ascii) : bool := (65 <=? code c) && (code c <=? 90).

(** A byte of a decimal integer: a digit or a sign. *)
Definition isLiteralChar (c : ascii) : bool :=
  isDigit c || bool_decide (c = "+"%char) || bool_decide (c = "-"%char).

(** Neither end of [s] is a byte that [f] trims. *)
Definition Bare (f : ascii → bool) (s : gostring) : Prop :=
  (∀ c, head s = Some c → f c = false) ∧ (∀ c, last s = Some c → f c = false).

(** An operating system in which no call fails. *)
Definition faultless (env : Env) : Prop := ∀ k, fault env k = None.

(** Sample environments and a sample command line for the examples: one
    in which nothing fails, and one whose third system call (the first read
    of the entropy source of the first file) fails. *)
Definition calmEnv : Env :=
  {| fault := λ _, None; entropy := λ k, default Byte.x00 (Byte.of_nat (k mod 256));
     clock := λ k, Z.of_nat k * 1000 |}.

Definition entropyFailureEnv : Env :=
  {| fault := λ k, if (k =? 2)%nat then Some (str "unexpected EOF") else None;
     entropy := λ _, Byte.x00; clock := λ k, Z.of_nat k * 1000 |}.

(** An environment whose second system call (the creation of the first
    file) fails. *)
Definition fileCreateFailureEnv : Env :=
  {| fault := λ k, if (k =? 1)%nat then Some (str "permission denied") else None;
     entropy := λ _, Byte.x00; clock := λ k, Z.of_nat k * 1000 |}.

Definition sampleFlags : Flags :=
  {| directoryFlag := Some (str ".out"); startFlag := Some 1; endFlag := Some 3;
     sizeFlag := Some (str "1 KB"); filesPerDirFlag := None;
     workersFlag := None; noSubdirsFlag := None |}.

(** Apart from the file at [path], the disk of [w'] is the disk of [w]. *)
Definition OnlyAt (path : gostring) (w w' : World) : Prop :=
  ∀ q, q ≠ path → files w' !! q = files w !! q.

(** The values that completion events put on [progress], each event being
    a size followed by a time. *)
Definition eventStream (events : list (Z * Z)) : list Z :=
  concat (map (λ ev, [ev.1; ev.2]) events).

(** The file of [path] exists and holds less than [data]: its bytes are a
    proper prefix of [data]. *)
Definition Short (path : gostring) (w : World) (data : list Byte.byte) : Prop :=
  ∃ content rest,
    files w !! path = Some content ∧ rest ≠ [] ∧ content ++ rest = data.

(** The random bytes that a call entered in world [w] draws for a file of
    [fileSize] bytes. *)
Definition fileBytes (env : Env) (w : World) (fileSize : Z) : list Byte.byte :=
  map (entropy env) (seq (drawn w) (Z.to_nat fileSize)).

(** * Properties *)

(** ** Machine integers *)

Lemma wrap_in_range z : GoInt.in_range (GoInt.wrap z).
Proof.
  unfold GoInt.in_range, GoInt.wrap, GoInt.min_int, GoInt.max_int.
  pose proof (Z.mod_pos_bound (z + 2 ^ 63) (2 ^ 64)). lia.
Qed.

Lemma wrap_id z : GoInt.in_range z → GoInt.wrap z = z.
Proof.
  unfold GoInt.in_range, GoInt.wrap, GoInt.min_int, GoInt.max_int. intros Hz.
  rewrite Z.mod_small; lia.
Qed.

Lemma wrap_add_l a b : GoInt.wrap (GoInt.wrap a + b) = GoInt.wrap (a + b).
Proof.
  unfold GoInt.wrap. f_equal.
  replace ((a + 2 ^ 63) mod 2 ^ 64 - 2 ^ 63 + b + 2 ^ 63)
    with ((a + 2 ^ 63) mod 2 ^ 64 + b) by lia.
  rewrite Zplus_mod_idemp_l. f_equal. lia.
Qed.

Lemma quot_between q j f :
  0 < f → 0 ≤ q → q * f ≤ j < (q + 1) * f → j ÷ f = q.
Proof.
  intros Hf Hq Hj. rewrite Z.quot_div_nonneg by nia.
  symmetry. apply (Z.div_unique j f q (j - q * f)); lia.
Qed.

Lemma quot_in_range i f :
  GoInt.in_range i → 0 < f → GoInt.in_range (i ÷ f).
Proof.
  unfold GoInt.in_range, GoInt.min_int, GoInt.max_int. intros Hi Hf.
  destruct (Z.le_gt_cases 0 i) as [Hpos|Hneg].
  - pose proof (Z.quot_pos i f Hpos Hf).
    assert (i ÷ f ≤ i); [|lia].
    rewrite Z.quot_div_nonneg by lia.
    apply Z.div_le_upper_bound; nia.
  - replace i with (- - i) by lia. rewrite Z.quot_opp_l by lia.
    pose proof (Z.quot_pos (- i) f ltac:(lia) Hf).
    assert (- i ÷ f ≤ - i); [|lia].
    rewrite Z.quot_div_nonneg by lia.
    apply Z.div_le_upper_bound; nia.
Qed.

(** ** The buffer sizer *)

Lemma getOptimalBufferSize_bounds p :
  minBufferSize ≤ getOptimalBufferSize p ≤ maxBufferSize.
Proof.
  unfold getOptimalBufferSize, minBufferSize, maxBufferSize.
  repeat case_match; lia.
Qed.

(** ** The file writer *)

Lemma ChunkSeq_sum bs rem cs : ChunkSeq bs rem cs → sumZ cs = rem.
Proof. induction 1; simpl; lia. Qed.

Section IOFacts.

Context (env : Env).

Lemma sysCall_ok w w' :
  sysCall env w = (None, w') →
  files w' = files w ∧ trace w' = trace w ∧ drawn w' = drawn w.
Proof. unfold sysCall. intros [= _ <-]. done. Qed.

Lemma sysCall_faultless w : faultless env → (sysCall env w).1 = None.
Proof. intros H. apply H. Qed.

Lemma fileWrite_ok path p w w' :
  fileWrite env path p w = (None, w') →
  files w' = <[path := onDisk path w ++ p]> (files w)
  ∧ trace w' = trace w ∧ drawn w' = drawn w.
Proof.
  unfold fileWrite, onDisk. destruct (sysCall env w) as [[e|] w1] eqn:Hs; [done|].
  apply sysCall_ok in Hs as (Hf & Ht & Hd). intros [= <-]. simpl.
  by rewrite Hf.
Qed.

Lemma fileWrite_faultless path p w :
  faultless env → (fileWrite env path p w).1 = None.
Proof.
  intros H. unfold fileWrite.
  pose proof (sysCall_faultless w H) as Hs.
  destruct (sysCall env w) as [[e|] w1]; done.
Qed.

Lemma Stored_write b w data p w' :
  Stored b w data →
  files w' = <[wrPath b := onDisk (wrPath b) w ++ p]> (files w) →
  onDisk (wrPath b) w' = onDisk (wrPath b) w ++ p
  ∧ is_Some (files w' !! wrPath b).
Proof.
  intros [Hsome Hdata] Hf. unfold onDisk. rewrite Hf, lookup_insert_eq. eauto.
Qed.

Lemma bufFlush_ok b w b' w' data :
  Stored b w data →
  bufFlush env b w = (None, b', w') →
  Stored b' w' data ∧ wrBuf b' = [] ∧ wrPath b' = wrPath b
  ∧ wrSize b' = wrSize b ∧ trace w' = trace w ∧ drawn w' = drawn w.
Proof.
  intros HS. unfold bufFlush. destruct (wrBuf b) as [|x l] eqn:Hbuf.
  - intros [= <- <-]. repeat split; try done; apply HS.
  - destruct (fileWrite env _ _ w) as [[e|] w1] eqn:Hw; [done|].
    intros [= <- <-]. apply fileWrite_ok in Hw as (Hf & Ht & Hd).
    destruct (Stored_write b w data (x :: l) w1 HS Hf) as [Hd1 Hs1].
    repeat split; simpl; try done.
    rewrite app_nil_r, Hd1, <- Hbuf. apply HS.
Qed.

Lemma bufFlush_faultless b w : faultless env → (bufFlush env b w).1.1 = None.
Proof.
  intros H. unfold bufFlush. destruct (wrBuf b) as [|x l]; [done|].
  pose proof (fileWrite_faultless (wrPath b) (x :: l) w H).
  destruct (fileWrite env _ _ w) as [[e|] w1]; done.
Qed.

Lemma bufWrite_ok b p w b' w' data :
  Stored b w data →
  bufWrite env b p w = (None, b', w') →
  Stored b' w' (data ++ p) ∧ wrPath b' = wrPath b ∧ wrSize b' = wrSize b
  ∧ trace w' = trace w ∧ drawn w' = drawn w.
Proof.
  intros HS. unfold bufWrite. case_match.
  { intros [= <- <-]. destruct HS as [Hsome <-].
    repeat split; simpl; try done. by rewrite (assoc_L (++)). }
  destruct (wrBuf b) as [|x l] eqn:Hbuf.
  { destruct (fileWrite env _ _ w) as [[e|] w1] eqn:Hw; [done|].
    intros [= <- <-]. apply fileWrite_ok in Hw as (Hf & Ht & Hd).
    destruct (Stored_write b w data p w1 HS Hf) as [Hd1 Hs1].
    repeat split; try done.
    rewrite Hbuf, app_nil_r, Hd1. f_equal.
    destruct HS as [_ <-]. by rewrite Hbuf, app_nil_r. }
  set (n := Z.to_nat _).
  set (full := Build_Writer _ _ _).
  assert (Stored full w (data ++ take n p)) as HSfull.
  { destruct HS as [Hsome <-]. split; [done|]. rewrite Hbuf.
    exact (List.app_assoc _ (x :: l) _). }
  destruct (bufFlush env full w) as [[[e|] b1] w1] eqn:Hfl; [done|].
  apply (bufFlush_ok _ _ _ _ _ HSfull) in Hfl
    as (HS1 & Hb1 & Hp1 & Hs1 & Ht1 & Hd1).
  case_match.
  { intros [= <- <-]. repeat split; simpl; try done.
    - apply HS1.
    - destruct HS1 as [_ HS1]. rewrite Hb1, app_nil_r in HS1.
      rewrite HS1, <- (assoc_L (++)). by rewrite take_drop. }
  destruct (fileWrite env _ _ w1) as [[e|] w2] eqn:Hw; [done|].
  intros [= <- <-]. apply fileWrite_ok in Hw as (Hf & Ht & Hd).
  destruct (Stored_write b1 w1 _ (drop n p) w2 HS1 Hf) as [Hd2 Hs2].
  repeat split; try done; try congruence.
  rewrite Hb1, app_nil_r, Hd2.
  destruct HS1 as [_ HS1]. rewrite Hb1, app_nil_r in HS1.
  rewrite HS1, <- (assoc_L (++)). by rewrite take_drop.
Qed.

Lemma bufWrite_faultless b p w : faultless env → (bufWrite env b p w).1.1 = None.
Proof.
  intros H. unfold bufWrite. case_match; [done|].
  destruct (wrBuf b) as [|x l].
  { pose proof (fileWrite_faultless (wrPath b) p w H).
    destruct (fileWrite env _ _ w) as [[e|] w1]; done. }
  set (full := Build_Writer _ _ _).
  pose proof (bufFlush_faultless full w H).
  destruct (bufFlush env full w) as [[[e|] b1] w1]; [done|].
  case_match; [done|].
  pose proof (fileWrite_faultless (wrPath b1) (drop (Z.to_nat (wrSize b - len (x :: l))) p) w1 H).
  destruct (fileWrite env _ _ w1) as [[e|] w2]; done.
Qed.

Lemma randRead_ok n w bytes w' :
  randRead env n w = (inl bytes, w') →
  bytes = map (entropy env) (seq (drawn w) (Z.to_nat n))
  ∧ files w' = files w ∧ trace w' = trace w
  ∧ drawn w' = (drawn w + Z.to_nat n)%nat.
Proof.
  unfold randRead. destruct (sysCall env w) as [[e|] w1] eqn:Hs; [done|].
  apply sysCall_ok in Hs as (Hf & Ht & Hd). intros [= <- <-]. simpl.
  by rewrite Hf, Ht, Hd.
Qed.

Lemma randRead_faultless n w :
  faultless env → ∃ bytes, (randRead env n w).1 = inl bytes.
Proof.
  intros H. unfold randRead. pose proof (sysCall_faultless w H).
  destruct (sysCall env w) as [[e|] w1]; [done|]. eauto.
Qed.

Lemma chunkSize_min remaining bufferSize :
  (if remaining <? bufferSize then remaining else bufferSize)
  = Z.min bufferSize remaining.
Proof. case_match; lia. Qed.

Lemma chunkLoop_ok fuel :
  ∀ path bs rem buffer b w b' w' data,
    0 < bs → 0 ≤ rem ≤ GoInt.max_int → Stored b w data →
    chunkLoop env fuel path bs rem buffer b w = (Ret None, b', w') →
    ∃ cs, ChunkSeq bs rem cs
      ∧ trace w' = trace w ++ map (EvChunk path) cs
      ∧ Stored b' w' (data ++ map (entropy env) (seq (drawn w) (Z.to_nat rem)))
      ∧ wrPath b' = wrPath b.
Proof.
  induction fuel as [|fuel IH]; intros path bs rem buffer b w b' w' data
    Hbs Hrem HS; simpl; [done|].
  case_match.
  2:{ intros [= <- <-]. assert (rem = 0) as -> by lia. exists []. simpl.
      rewrite !app_nil_r. split; [apply chunks_done|]. done. }
  rewrite chunkSize_min. set (c := Z.min bs rem).
  assert (0 < c ≤ rem) as Hc by (subst c; lia).
  destruct (randRead env c w) as [[bytes|e] w1] eqn:Hrd; [|done].
  apply randRead_ok in Hrd as (-> & Hf1 & Ht1 & Hd1).
  rewrite take_app_length' by (by rewrite length_map, length_seq).
  assert (Stored b (record (EvChunk path c) w1) data) as HS1.
  { destruct HS as [Hsome Hdata]. unfold Stored, onDisk in *. simpl.
    by rewrite Hf1. }
  destruct (bufWrite env b _ _) as [[[e|] b2] w2] eqn:Hwr; [done|].
  apply (bufWrite_ok _ _ _ _ _ _ HS1) in Hwr as (HS2 & Hp2 & Hs2 & Ht2 & Hd2).
  intros Hloop.
  assert (GoInt.sub rem c = rem - c) as Hsub.
  { apply wrap_id. unfold GoInt.in_range, GoInt.min_int, GoInt.max_int in *. lia. }
  rewrite Hsub in Hloop.
  assert (0 ≤ rem - c ≤ GoInt.max_int) as Hrem' by lia.
  apply (IH _ _ _ _ _ _ _ _ _ Hbs Hrem' HS2) in Hloop
    as (cs & Hcs & Htr & HS' & Hp').
  exists (c :: cs). repeat split; try apply HS'.
  - constructor; [lia|done].
  - rewrite Htr, Ht2. simpl. rewrite Ht1. by rewrite <- (assoc_L (++)).
  - destruct HS' as [_ ->]. rewrite Hd2. simpl. rewrite Hd1.
    rewrite <- (assoc_L (++)). f_equal. rewrite <- map_app, <- seq_app.
    do 2 f_equal. lia.
  - congruence.
Qed.

Lemma chunkLoop_returns fuel :
  ∀ path bs rem buffer b w,
    0 < bs → 0 ≤ rem ≤ GoInt.max_int → (Z.to_nat rem < fuel)%nat →
    ∃ r b' w', chunkLoop env fuel path bs rem buffer b w = (Ret r, b', w').
Proof.
  induction fuel as [|fuel IH]; intros path bs rem buffer b w Hbs Hrem Hfuel;
    [lia|]. simpl.
  case_match; [|eauto].
  rewrite chunkSize_min. set (c := Z.min bs rem).
  assert (0 < c ≤ rem) as Hc by (subst c; lia).
  destruct (randRead env c w) as [[bytes|e] w1]; [|eauto].
  destruct (bufWrite env b _ _) as [[[e|] b2] w2]; [eauto|].
  assert (GoInt.sub rem c = rem - c) as ->.
  { apply wrap_id. unfold GoInt.in_range, GoInt.min_int, GoInt.max_int in *. lia. }
  apply IH; lia.
Qed.

Lemma chunkLoop_faultless fuel :
  ∀ path bs rem buffer b w r b' w',
    faultless env →
    chunkLoop env fuel path bs rem buffer b w = (Ret r, b', w') → r = None.
Proof.
  induction fuel as [|fuel IH]; intros path bs rem buffer b w r b' w' Hnf;
    simpl; [done|].
  case_match; [|by intros [= <- _ _]].
  destruct (randRead_faultless
              (if rem <? bs then rem else bs) w Hnf) as [bytes Hb].
  destruct (randRead env _ w) as [[bytes'|e] w1]; [|done].
  match goal with
  | |- context [bufWrite env ?b ?p ?w] =>
      pose proof (bufWrite_faultless b p w Hnf) as Hw;
      destruct (bufWrite env b p w) as [[[e|] b2] w2]; [done|]
  end.
  apply IH, Hnf.
Qed.

Lemma Stored_created path size w :
  Stored (NewWriterSize path size) (setFiles (<[path := []]> (files w)) w) [].
Proof.
  unfold Stored, onDisk. simpl. rewrite lookup_insert_eq. eauto.
Qed.

Lemma Stored_flushed b w data :
  Stored b w data → wrBuf b = [] → files w !! wrPath b = Some data.
Proof.
  unfold Stored, onDisk. intros [[x Hx] Hdata] Hbuf.
  rewrite Hx in *. simpl in Hdata. rewrite Hbuf, app_nil_r in Hdata. congruence.
Qed.

(** When [createRandomFile] returns, and what a successful return leaves. *)
Lemma createRandomFile_returns fuel path fileSize bufferSize w :
  0 ≤ fileSize ≤ GoInt.max_int → 0 < bufferSize →
  (Z.to_nat fileSize < fuel)%nat →
  ∃ r w', createRandomFile env fuel path fileSize bufferSize w = (Ret r, w')
    ∧ (faultless env → r = None)
    ∧ (r = None →
       ∃ cs, ChunkSeq bufferSize fileSize cs
         ∧ trace w' =
             trace w ++ (EvCall path fileSize bufferSize :: map (EvChunk path) cs)
         ∧ files w' !! path =
             Some (map (entropy env) (seq (drawn w) (Z.to_nat fileSize)))).
Proof.
  intros Hfs Hbs Hfuel. unfold createRandomFile, MkdirAll, Create.
  set (w0 := record _ w).
  destruct (sysCall env w0) as [[e|] w1] eqn:H1.
  { eexists _, _. split; [done|]. split; [|done].
    intros Hnf. pose proof (sysCall_faultless w0 Hnf) as Hc.
    by rewrite H1 in Hc. }
  apply sysCall_ok in H1 as (Hf1 & Ht1 & Hd1).
  destruct (sysCall env w1) as [[e|] w2] eqn:H2.
  { eexists _, _. split; [done|]. split; [|done].
    intros Hnf. pose proof (sysCall_faultless w1 Hnf) as Hc.
    by rewrite H2 in Hc. }
  apply sysCall_ok in H2 as (Hf2 & Ht2 & Hd2).
  assert ((bufferSize <? 0) = false) as -> by lia.
  set (w3 := setFiles _ w2). set (bw := NewWriterSize path bufferSize).
  destruct (chunkLoop_returns fuel path bufferSize fileSize
              (replicate (Z.to_nat bufferSize) Byte.x00) bw w3 Hbs Hfs Hfuel)
    as (r & b4 & w4 & Hloop).
  rewrite Hloop. destruct r as [e|].
  { eexists _, _. split; [done|]. split; [|done].
    intros Hnf. by apply (chunkLoop_faultless _ _ _ _ _ _ _ _ _ _ Hnf) in Hloop. }
  apply (chunkLoop_ok _ _ _ _ _ _ _ _ _ [] Hbs Hfs (Stored_created _ _ _))
    in Hloop as (cs & Hcs & Htr & HS4 & Hp4).
  destruct (bufFlush env b4 w4) as [[[e|] b5] w5] eqn:Hfl.
  { eexists _, _. split; [done|]. split; [|done].
    intros Hnf. pose proof (bufFlush_faultless b4 w4 Hnf) as Hc.
    by rewrite Hfl in Hc. }
  apply (bufFlush_ok _ _ _ _ _ HS4) in Hfl as (HS5 & Hb5 & Hp5 & _ & Ht5 & _).
  eexists _, _. split; [done|]. split; [done|]. intros _.
  exists cs. split; [done|]. split.
  - rewrite Ht5, Htr. subst w3 w0. simpl. rewrite Ht2, Ht1. simpl.
    by rewrite <- (assoc_L (++)).
  - apply Stored_flushed in HS5; [|done].
    rewrite Hp5, Hp4 in HS5. subst w3 w0. simpl in HS5.
    by rewrite Hd2, Hd1 in HS5.
Qed.

End IOFacts.

(** ** Histories *)

Lemma contains_intro pre sub post : contains (pre ++ sub ++ post) sub = true.
Proof.
  induction pre as [|c pre IH]; simpl.
  - assert (sub `prefix_of` sub ++ post) as H by by apply prefix_app_r.
    destruct (sub ++ post); simpl; by rewrite bool_decide_eq_true_2.
  - by rewrite IH, orb_true_r.
Qed.

Lemma contains_elim s sub :
  contains s sub = true → ∃ pre post, s = pre ++ sub ++ post.
Proof.
  induction s as [|c s IH]; simpl; rewrite orb_true_iff, bool_decide_eq_true.
  - intros [[post ->]|?]; [|done]. by exists [], post.
  - intros [[post ->]|H]; [by exists [], post|].
    destruct (IH H) as (pre & post & ->). by exists (c :: pre), post.
Qed.

Section TraceFacts.

Context (env : Env).

Lemma fileWrite_trace path p w : trace (fileWrite env path p w).2 = trace w.
Proof. unfold fileWrite, sysCall. by destruct (fault env (ticks w)). Qed.

Lemma bufFlush_trace b w : trace (bufFlush env b w).2 = trace w.
Proof.
  unfold bufFlush. destruct (wrBuf b) as [|x l]; [done|].
  pose proof (fileWrite_trace (wrPath b) (x :: l) w).
  by destruct (fileWrite env _ _ w) as [[e|] w1].
Qed.

Lemma bufWrite_trace b p w : trace (bufWrite env b p w).2 = trace w.
Proof.
  unfold bufWrite. case_match; [done|]. destruct (wrBuf b) as [|x l].
  { pose proof (fileWrite_trace (wrPath b) p w).
    by destruct (fileWrite env _ _ w) as [[e|] w1]. }
  set (full := Build_Writer _ _ _).
  pose proof (bufFlush_trace full w) as H1.
  destruct (bufFlush env full w) as [[[e|] b1] w1]; [done|].
  case_match; [done|]. simpl in H1.
  match goal with
  | |- context [fileWrite env ?q ?d w1] =>
      pose proof (fileWrite_trace q d w1) as H2;
      destruct (fileWrite env q d w1) as [[e|] w2]
  end; simpl in *; congruence.
Qed.

Lemma randRead_trace n w : trace (randRead env n w).2 = trace w.
Proof. unfold randRead, sysCall. by destruct (fault env (ticks w)). Qed.

Lemma Reported_named k pre path mid os :
  k ≠ RandomSourceError →
  Reported path (Errorf k [pre; path; mid; os]).
Proof.
  intros Hk. right. split; [done|]. unfold Errorf. simpl.
  rewrite app_nil_r. apply contains_intro.
Qed.

Lemma chunkLoop_trace fuel :
  ∀ path bs rem buffer b w out b' w',
    chunkLoop env fuel path bs rem buffer b w = (out, b', w') →
    (∃ cs, trace w' = trace w ++ map (EvChunk path) cs)
    ∧ (∀ e, out = Ret (Some e) → Reported path e).
Proof.
  induction fuel as [|fuel IH]; intros path bs rem buffer b w out b' w'; simpl.
  { intros [= <- _ <-]. split; [|done]. exists []. by rewrite app_nil_r. }
  case_match.
  2:{ intros [= <- _ <-]. split; [|done]. exists []. by rewrite app_nil_r. }
  pose proof (randRead_trace (if rem <? bs then rem else bs) w) as Hr.
  destruct (randRead env _ w) as [[bytes|os] w1]; simpl in Hr.
  2:{ intros [= <- _ <-]. split.
      - exists []. by rewrite app_nil_r.
      - intros e [= <-]. left. split; [done|]. exists os.
        unfold Errorf. simpl. by rewrite app_nil_r. }
  match goal with
  | |- context [bufWrite env b ?p ?w] =>
      pose proof (bufWrite_trace b p w) as Hw;
      destruct (bufWrite env b p w) as [[[os|] b2] w2]
  end; simpl in Hw.
  { intros [= <- _ <-]. split.
    - eexists [_]. by rewrite Hw, Hr.
    - intros e [= <-]. by apply Reported_named. }
  intros Hloop. apply IH in Hloop as [[cs Hcs] He]. split; [|done].
  eexists (_ :: cs). rewrite Hcs, Hw, Hr. by rewrite <- (assoc_L (++)).
Qed.

Lemma createRandomFile_trace fuel path fileSize bufferSize w out w' :
  createRandomFile env fuel path fileSize bufferSize w = (out, w') →
  (∃ cs, trace w' =
         trace w ++ [EvCall path fileSize bufferSize] ++ map (EvChunk path) cs)
  ∧ (∀ e, out = Ret (Some e) → Reported path e).
Proof.
  unfold createRandomFile, MkdirAll, Create, sysCall. simpl.
  destruct (fault env (ticks w)) as [os|].
  { intros [= <- <-]. split; [by exists []|].
    intros e [= <-]. by apply Reported_named. }
  destruct (fault env (S (ticks w))) as [os|].
  { intros [= <- <-]. split; [by exists []|].
    intros e [= <-]. by apply Reported_named. }
  case_match.
  { intros [= <- <-]. split; [by exists []|]. done. }
  destruct (chunkLoop env _ _ _ _ _ _ _) as [[o b4] w4] eqn:Hloop.
  apply chunkLoop_trace in Hloop as [[cs Hcs] He]. simpl in Hcs.
  destruct o as [[e|]| |].
  - intros [= <- <-]. split; [|intros e' [= <-]; by apply He].
    exists cs. by rewrite Hcs, <- (assoc_L (++)).
  - pose proof (bufFlush_trace b4 w4) as Hf.
    destruct (bufFlush env b4 w4) as [[[os|] b5] w5]; simpl in Hf;
      intros [= <- <-].
    + split; [|intros e' [= <-]; by apply Reported_named].
      exists cs. by rewrite Hf, Hcs, <- (assoc_L (++)).
    + split; [|done]. exists cs. by rewrite Hf, Hcs, <- (assoc_L (++)).
  - intros [= <- <-]. split; [|done].
    exists cs. by rewrite Hcs, <- (assoc_L (++)).
  - intros [= <- <-]. split; [|done].
    exists cs. by rewrite Hcs, <- (assoc_L (++)).
Qed.

End TraceFacts.

(** C1: for every fileSize > 0 and bufferSize > 0 a call of createRandomFile
    returns once the loop had enough rounds; when it returns without error,
    the chunks written were each the smaller of bufferSize and the bytes
    remaining, down to zero remaining, their sizes add up to fileSize, and
    the file on disk holds exactly fileSize bytes (the random bytes drawn).
    With no failing system call the return is without error. *)
Theorem createRandomFile_writes_fileSize env fuel path fileSize bufferSize w :
  0 < fileSize ≤ GoInt.max_int → 0 < bufferSize →
  (Z.to_nat fileSize < fuel)%nat →
  ∃ r w', createRandomFile env fuel path fileSize bufferSize w = (Ret r, w')
    ∧ (faultless env → r = None)
    ∧ (r = None →
       ∃ cs content,
         ChunkSeq bufferSize fileSize cs
         ∧ sumZ cs = fileSize
         ∧ chunks (trace w') = chunks (trace w) ++ cs
         ∧ files w' !! path = Some content
         ∧ len content = fileSize
         ∧ content = map (entropy env) (seq (drawn w) (Z.to_nat fileSize))).
Proof.
  intros Hfs Hbs Hfuel.
  destruct (createRandomFile_returns env fuel path fileSize bufferSize w
              ltac:(lia) Hbs Hfuel) as (r & w' & Hrun & Hnf & Hok).
  exists r, w'. split; [done|]. split; [done|]. intros Hr.
  destruct (Hok Hr) as (cs & Hcs & Htr & Hfile).
  eexists cs, _. repeat split; try done.
  - by apply ChunkSeq_sum in Hcs.
  - rewrite Htr. unfold chunks. rewrite omap_app. simpl. f_equal.
    clear. induction cs; simpl; [done|]. by f_equal.
  - unfold len. rewrite length_map, length_seq. lia.
Qed.

Lemma createRandomFile_writes_fileSize_witness :
  ∃ r w',
    createRandomFile calmEnv 6 (str ".out/file_1.bin") 5 2 emptyWorld
    = (Ret r, w')
    ∧ (faultless calmEnv → r = None)
    ∧ (r = None →
       ∃ cs content,
         ChunkSeq 2 5 cs
         ∧ sumZ cs = 5
         ∧ chunks (trace w') = chunks (trace emptyWorld) ++ cs
         ∧ files w' !! str ".out/file_1.bin" = Some content
         ∧ len content = 5
         ∧ content = map (entropy calmEnv) (seq (drawn emptyWorld) (Z.to_nat 5))).
Proof.
  apply (createRandomFile_writes_fileSize calmEnv 6 (str ".out/file_1.bin")
           5 2 emptyWorld).
  - unfold GoInt.max_int. lia.
  - lia.
  - simpl. lia.
Defined.

Example createRandomFile_runs :
  let run := createRandomFile calmEnv 6 (str "f") 5 2 emptyWorld in
  run.1 = Ret None
  ∧ chunks (trace run.2) = [2; 2; 1]
  ∧ length <$> files run.2 !! str "f" = Some 5%nat.
Proof. by vm_compute. Qed.

(** ** The worker *)

Lemma omap_map_None {A B C} (f : B → option C) (g : A → B) (l : list A) :
  (∀ x, f (g x) = None) → omap f (map g l) = [].
Proof. intros H. induction l as [|x l IH]; simpl; [done|]. by rewrite H. Qed.

Lemma calls_jobEvents id fs bs path r :
  calls (jobEvents id fs bs path r) = [(path, fs, bs)].
Proof.
  unfold calls, jobEvents. rewrite !omap_app, omap_map_None by done.
  by destruct (runErr r).
Qed.

Lemma sent_jobEvents id fs bs path r :
  sent (jobEvents id fs bs path r) = jobProgress fs r.
Proof.
  unfold sent, jobEvents. rewrite !omap_app, omap_map_None by done.
  by destruct (runErr r).
Qed.

Lemma calls_app a b : calls (a ++ b) = calls a ++ calls b.
Proof. apply omap_app. Qed.

Lemma sent_app a b : sent (a ++ b) = sent a ++ sent b.
Proof. apply omap_app. Qed.

Lemma calls_jobs id fs bs jobs :
  ∀ rs, length rs = length jobs →
    calls (concat (zip_with (jobEvents id fs bs) jobs rs))
    = map (λ p, (p, fs, bs)) jobs.
Proof.
  induction jobs as [|p jobs IH]; intros [|r rs] Hlen; try done.
  injection Hlen as Hlen.
  change (calls (jobEvents id fs bs p r
                 ++ concat (zip_with (jobEvents id fs bs) jobs rs))
          = (p, fs, bs) :: map (λ p, (p, fs, bs)) jobs).
  by rewrite calls_app, calls_jobEvents, IH.
Qed.

Lemma sent_jobs id fs bs jobs :
  ∀ rs, length rs = length jobs →
    sent (concat (zip_with (jobEvents id fs bs) jobs rs))
    = concat (map (jobProgress fs) rs).
Proof.
  induction jobs as [|p jobs IH]; intros [|r rs] Hlen; try done.
  injection Hlen as Hlen.
  change (sent (jobEvents id fs bs p r
                ++ concat (zip_with (jobEvents id fs bs) jobs rs))
          = jobProgress fs r ++ concat (map (jobProgress fs) rs)).
  by rewrite sent_app, sent_jobEvents, IH.
Qed.

Section WorkerFacts.

Context (env : Env).

(** The worker runs every job of its sequence, whatever each call returns. *)
Lemma worker_runs fuel id fileSize bufferSize :
  0 ≤ fileSize ≤ GoInt.max_int → 0 < bufferSize →
  (Z.to_nat fileSize < fuel)%nat →
  ∀ jobs w, ∃ rs w',
    worker env fuel id jobs fileSize bufferSize w = (Ret (), w')
    ∧ length rs = length jobs
    ∧ trace w' =
        trace w ++ concat (zip_with (jobEvents id fileSize bufferSize) jobs rs)
    ∧ Forall2 (λ path r, ∀ e, runErr r = Some e → Reported path e) jobs rs
    ∧ (faultless env → Forall (λ r, runErr r = None) rs).
Proof.
  intros Hfs Hbs Hfuel. induction jobs as [|path jobs IH]; intros w.
  { exists [], w. simpl. rewrite app_nil_r. repeat split; auto. }
  simpl.
  destruct (createRandomFile_returns env fuel path fileSize bufferSize w
              Hfs Hbs Hfuel) as (r & w1 & Hrun & Hnf & _).
  rewrite Hrun.
  apply createRandomFile_trace in Hrun as [[cs Hcs] Hrep].
  match goal with
  | |- context [worker env fuel id jobs fileSize bufferSize ?w5] =>
      destruct (IH w5) as (rs & w' & Hw & Hlen & Htr & Hall & Hok)
  end.
  match type of Hw with
  | context [EvSend (GoInt.sub ?a ?b)] =>
      exists ({| runChunks := cs; runErr := r;
                 runElapsed := GoInt.sub a b |} :: rs), w'
  end.
  split; [done|]. split; [simpl; by rewrite Hlen|]. split; [|split].
  - rewrite Htr. simpl. unfold jobEvents at 2. simpl.
    destruct r as [e|]; simpl; rewrite Hcs; simpl;
      rewrite <- ?(assoc_L (++)); simpl; rewrite <- ?(assoc_L (++)); done.
  - constructor; [|done]. simpl. intros e ->. by apply Hrep.
  - intros Hf. constructor; [by apply Hnf|by apply Hok].
Qed.

End WorkerFacts.

(** ** The progress monitor *)

Lemma account_in_range size t s : StatsInRange (account size t s).
Proof. repeat split; apply wrap_in_range. Qed.

Lemma noStats_in_range : StatsInRange noStats.
Proof. repeat split; cbv; congruence. Qed.

Lemma monitor_jobs fs (rs : list JobRun) :
  ∀ s, StatsInRange s →
    let s' := monitor (concat (map (jobProgress fs) rs)) s in
    completed s' = GoInt.wrap (completed s + len rs)
    ∧ totalBytes s' = GoInt.wrap (totalBytes s + len rs * fs)
    ∧ totalTime s' = GoInt.wrap (totalTime s + sumZ (map runElapsed rs)).
Proof.
  induction rs as [|r rs IH]; intros s Hs; simpl.
  { destruct Hs as (H1 & H2 & H3). unfold len. simpl.
    rewrite ?Z.add_0_r. by rewrite !wrap_id. }
  destruct (IH (account fs (runElapsed r) s) (account_in_range _ _ _))
    as (H1 & H2 & H3).
  simpl in *. rewrite H1, H2, H3. unfold GoInt.add, len. simpl length.
  rewrite !wrap_add_l. repeat split; f_equal; lia.
Qed.

(** ** Decimal numerals *)

Lemma to_int_nonnil z :
  Z.to_int z ≠ Decimal.Pos Decimal.Nil ∧ Z.to_int z ≠ Decimal.Neg Decimal.Nil.
Proof.
  destruct z as [|q|q]; simpl; split; try done;
    intros [= H]; by apply DecimalPos.Unsigned.to_uint_nonnil in H.
Qed.

Lemma fmt_d_inj i j : fmt.d i = fmt.d j → i = j.
Proof.
  unfold fmt.d, str. intros H.
  apply (f_equal String.string_of_list_ascii) in H.
  rewrite !String.string_of_list_ascii_of_string in H.
  apply (f_equal NilZero.int_of_string) in H.
  destruct (to_int_nonnil i) as [Hi1 Hi2], (to_int_nonnil j) as [Hj1 Hj2].
  rewrite !NilZero.isi in H by done. injection H as H.
  apply (f_equal Z.of_int) in H. by rewrite !DecimalZ.of_to in H.
Qed.

Lemma uint_chars d : "_"%char ∉ str (NilEmpty.string_of_uint d).
Proof.
  induction d; simpl; rewrite ?not_elem_of_cons; try split; try done;
    apply not_elem_of_nil.
Qed.

Lemma nzuint_chars d : "_"%char ∉ str (NilZero.string_of_uint d).
Proof.
  destruct d; try apply uint_chars.
  intros H. apply list_elem_of_singleton in H. discriminate.
Qed.

Lemma fmt_d_chars z : "_"%char ∉ fmt.d z.
Proof.
  unfold fmt.d. destruct (Z.to_int z) as [d|d]; simpl.
  - apply nzuint_chars.
  - intros H. apply elem_of_cons in H as [H|H]; [discriminate|].
    by apply nzuint_chars in H.
Qed.

(** ** The path of an index *)

Lemma last_field_inj (c : ascii) :
  ∀ a1 a2 d1 d2, c ∉ d1 → c ∉ d2 → a1 ++ c :: d1 = a2 ++ c :: d2 → d1 = d2.
Proof.
  induction a1 as [|x a1 IH]; intros [|y a2] d1 d2 H1 H2; simpl; intros [= ];
    subst; try done.
  - exfalso. apply H1. apply elem_of_app. right. by left.
  - exfalso. apply H2. apply elem_of_app. right. by left.
  - by eapply IH.
Qed.

Lemma filePath_total directory i filesPerDir noSubdirs :
  noSubdirs = true ∨ filesPerDir ≠ 0 →
  is_Some (filePath directory i filesPerDir noSubdirs).
Proof.
  unfold filePath, GoInt.div. intros [->|Hf]; [by eexists|].
  destruct noSubdirs; [by eexists|].
  destruct (Z.eqb_spec filesPerDir 0); [done|by eexists].
Qed.

Lemma filePath_shape directory i filesPerDir noSubdirs p :
  filePath directory i filesPerDir noSubdirs = Some p →
  ∃ a, p = (a ++ "_"%char :: fmt.d i) ++ str ".bin".
Proof.
  unfold filePath. destruct noSubdirs.
  - intros [= <-]. exists (directory ++ str "/file").
    rewrite <- !(assoc_L (++)). done.
  - destruct (GoInt.div i filesPerDir) as [q|]; [|done]. intros [= <-].
    exists ((directory ++ str "/subdir_" ++ fmt.d q) ++ str "/file").
    rewrite <- !(assoc_L (++)). done.
Qed.

Lemma filePath_inj directory filesPerDir noSubdirs i j p :
  filePath directory i filesPerDir noSubdirs = Some p →
  filePath directory j filesPerDir noSubdirs = Some p →
  i = j.
Proof.
  intros Hi Hj. apply filePath_shape in Hi as [a ->].
  apply filePath_shape in Hj as [b Hb].
  apply app_inv_tail in Hb.
  apply last_field_inj in Hb; auto using fmt_d_chars.
  symmetry. by apply fmt_d_inj.
Qed.

Lemma filePath_subdir directory i filesPerDir :
  GoInt.in_range i → 0 < filesPerDir →
  filePath directory i filesPerDir false =
    Some (directory ++ str "/subdir_" ++ fmt.d (i ÷ filesPerDir)
          ++ str "/file_" ++ fmt.d i ++ str ".bin").
Proof.
  intros Hi Hf. unfold filePath, GoInt.div.
  destruct (Z.eqb_spec filesPerDir 0); [lia|].
  rewrite wrap_id by by apply quot_in_range.
  by rewrite <- !(assoc_L (++)).
Qed.

Lemma filePath_bucket directory i q :
  0 ≤ q → q * 10000 ≤ i < (q + 1) * 10000 → i ≤ GoInt.max_int →
  filePath directory i 10000 false =
    Some (directory ++ str "/subdir_" ++ fmt.d q
          ++ str "/file_" ++ fmt.d i ++ str ".bin").
Proof.
  intros Hq Hi Hmax. rewrite filePath_subdir.
  - by rewrite (quot_between q i 10000) by lia.
  - unfold GoInt.in_range, GoInt.min_int, GoInt.max_int in *. lia.
  - lia.
Qed.

(** C3: the path of a file is a function of (directory, index, filesPerDir,
    noSubdirs) alone.  Without subdirectories it is
    directory/file_<index>.bin; with them the subdirectory number is the
    integer quotient index / filesPerDir and the path is
    directory/subdir_<number>/file_<index>.bin.  With filesPerDir = 10000,
    indices 1..9999 go to subdir_0, 10000..19999 to subdir_1 and
    20000..25000 to subdir_2. *)
Theorem filePath_plan directory i filesPerDir :
  GoInt.in_range i → 0 < filesPerDir →
  filePath directory i filesPerDir true =
    Some (directory ++ str "/file_" ++ fmt.d i ++ str ".bin")
  ∧ filePath directory i filesPerDir false =
      Some (directory ++ str "/subdir_" ++ fmt.d (i ÷ filesPerDir)
            ++ str "/file_" ++ fmt.d i ++ str ".bin")
  ∧ (∀ j, 1 ≤ j ≤ 9999 →
       filePath directory j 10000 false =
         Some (directory ++ str "/subdir_0/file_" ++ fmt.d j ++ str ".bin"))
  ∧ (∀ j, 10000 ≤ j ≤ 19999 →
       filePath directory j 10000 false =
         Some (directory ++ str "/subdir_1/file_" ++ fmt.d j ++ str ".bin"))
  ∧ (∀ j, 20000 ≤ j ≤ 25000 →
       filePath directory j 10000 false =
         Some (directory ++ str "/subdir_2/file_" ++ fmt.d j ++ str ".bin")).
Proof.
  intros Hi Hf. split; [done|]. split; [by apply filePath_subdir|].
  unfold GoInt.max_int.
  repeat split; intros j Hj.
  - by rewrite (filePath_bucket directory j 0) by (unfold GoInt.max_int; lia).
  - by rewrite (filePath_bucket directory j 1) by (unfold GoInt.max_int; lia).
  - by rewrite (filePath_bucket directory j 2) by (unfold GoInt.max_int; lia).
Qed.

Lemma filePath_plan_witness :
  filePath (str ".out") 12345 10000 false
  = Some (str ".out/subdir_1/file_12345.bin").
Proof.
  destruct (filePath_plan (str ".out") 12345 10000) as (_ & _ & _ & H & _).
  - unfold GoInt.in_range, GoInt.min_int, GoInt.max_int. lia.
  - lia.
  - apply (H 12345). lia.
Defined.

(** ** The producer *)

Lemma producer_range directory endNum filesPerDir noSubdirs :
  endNum < GoInt.max_int →
  ∀ (n : nat) i fuel paths,
    GoInt.min_int ≤ i → Z.of_nat n = endNum - i + 1 → (n < fuel)%nat →
    Forall2 (λ k p, filePath directory k filesPerDir noSubdirs = Some p)
            (seqZ i (Z.of_nat n)) paths →
    producer fuel directory i endNum filesPerDir noSubdirs = (paths, Closed).
Proof.
  intros Hend. induction n as [|n IH]; intros i [|fuel] paths Hi Hn Hfuel Hall;
    try lia; simpl.
  - assert ((i <=? endNum) = false) as -> by lia.
    by apply Forall2_nil_inv_l in Hall as ->.
  - assert ((i <=? endNum) = true) as -> by lia.
    rewrite seqZ_cons in Hall by lia.
    apply Forall2_cons_inv_l in Hall as (p & rest & Hp & Hrest & ->).
    rewrite Hp.
    assert (GoInt.add i 1 = i + 1) as ->.
    { apply wrap_id. unfold GoInt.in_range, GoInt.max_int in *. lia. }
    replace (Z.pred (Z.of_nat (S n))) with (Z.of_nat n) in Hrest by lia.
    by rewrite (IH (i + 1) fuel rest) by (try done; lia).
Qed.

Lemma planned_paths directory filesPerDir noSubdirs l :
  noSubdirs = true ∨ filesPerDir ≠ 0 →
  ∃ paths,
    Forall2 (λ k p, filePath directory k filesPerDir noSubdirs = Some p) l paths.
Proof.
  intros H. induction l as [|k l [paths IH]]; [by exists []|].
  destruct (filePath_total directory k filesPerDir noSubdirs H) as [p Hp].
  exists (p :: paths). by constructor.
Qed.

Lemma planned_paths_NoDup directory filesPerDir noSubdirs l paths :
  NoDup l →
  Forall2 (λ k p, filePath directory k filesPerDir noSubdirs = Some p) l paths →
  NoDup paths.
Proof.
  intros Hl Hall. induction Hall as [|k p l paths Hp Hall IH]; [constructor|].
  apply NoDup_cons in Hl as [Hk Hl]. constructor; [|by apply IH].
  intros Hin. apply Hk.
  apply list_elem_of_lookup in Hin as [n Hn].
  destruct (Forall2_lookup_r _ _ _ _ _ Hall Hn) as (k' & Hk' & Hp').
  assert (k = k') as -> by by eapply filePath_inj.
  by eapply list_elem_of_lookup_2.
Qed.

Lemma producer_never_closes directory filesPerDir :
  ∀ fuel i, GoInt.in_range i →
    (producer fuel directory i GoInt.max_int filesPerDir true).2 = Producing
    ∧ length (producer fuel directory i GoInt.max_int filesPerDir true).1 = fuel.
Proof.
  induction fuel as [|fuel IH]; intros i Hi; simpl; [done|].
  assert ((i <=? GoInt.max_int) = true) as -> by (destruct Hi; lia).
  destruct (IH (GoInt.add i 1) (wrap_in_range _)) as [H1 H2].
  destruct (producer fuel _ _ _ _ _) as [sent st]. simpl in *.
  by rewrite H1, H2.
Qed.

(** C5, as the code has it: for every run with startIndex ≤ endIndex below
    the largest machine integer (and a nonzero filesPerDir when
    subdirectories are in use) the producer sends the paths of the indices
    startIndex..endIndex in ascending order, one per index: exactly
    endIndex − startIndex + 1 paths, pairwise distinct, and then closes the
    queue. *)
Theorem producer_enumerates directory startNum endNum filesPerDir noSubdirs :
  GoInt.min_int ≤ startNum → startNum ≤ endNum → endNum < GoInt.max_int →
  noSubdirs = true ∨ filesPerDir ≠ 0 →
  ∃ paths,
    (∀ fuel, (Z.to_nat (endNum - startNum + 1) < fuel)%nat →
       producer fuel directory startNum endNum filesPerDir noSubdirs
       = (paths, Closed))
    ∧ Forall2 (λ i p, filePath directory i filesPerDir noSubdirs = Some p)
              (seqZ startNum (endNum - startNum + 1)) paths
    ∧ len paths = endNum - startNum + 1
    ∧ NoDup paths.
Proof.
  intros Hmin Hle Hmax Hf.
  destruct (planned_paths directory filesPerDir noSubdirs
              (seqZ startNum (endNum - startNum + 1)) Hf) as [paths Hall].
  exists paths. repeat split; try done.
  - intros fuel Hfuel.
    apply (producer_range directory endNum filesPerDir noSubdirs Hmax
             (Z.to_nat (endNum - startNum + 1))); try done; try lia.
    by rewrite Z2Nat.id by lia.
  - unfold len. rewrite <- (Forall2_length _ _ _ Hall), length_seqZ. lia.
  - eapply planned_paths_NoDup; [apply NoDup_seqZ|done].
Qed.

Lemma producer_enumerates_witness :
  ∃ paths,
    (∀ fuel, (Z.to_nat (3 - 1 + 1) < fuel)%nat →
       producer fuel (str ".out") 1 3 10000 true = (paths, Closed))
    ∧ Forall2 (λ i p, filePath (str ".out") i 10000 true = Some p)
              (seqZ 1 (3 - 1 + 1)) paths
    ∧ len paths = 3 - 1 + 1
    ∧ NoDup paths.
Proof.
  apply (producer_enumerates (str ".out") 1 3 10000 true).
  - unfold GoInt.min_int. lia.
  - lia.
  - unfold GoInt.max_int. lia.
  - by left.
Defined.

(** C5, as stated, fails at the largest machine integer: a run from
    2^63 - 1 to 2^63 - 1 has one index, but the loop counter wraps around
    past it, so the producer keeps sending (three paths after three rounds,
    [n] after [n]) and never closes the queue. *)
Lemma producer_wraps_at_max_int :
  GoInt.max_int ≤ GoInt.max_int
  ∧ GoInt.max_int - GoInt.max_int + 1 = 1
  ∧ (∀ fuel,
       (producer fuel (str ".out") GoInt.max_int GoInt.max_int 10000 true).2
       = Producing
       ∧ length
           (producer fuel (str ".out") GoInt.max_int GoInt.max_int 10000 true).1
         = fuel)
  ∧ (producer 3 (str ".out") GoInt.max_int GoInt.max_int 10000 true).1
    = [str ".out/file_9223372036854775807.bin";
       str ".out/file_-9223372036854775808.bin";
       str ".out/file_-9223372036854775807.bin"].
Proof.
  split; [done|]. split; [done|]. split; [|by vm_compute].
  intros fuel. apply producer_never_closes.
  unfold GoInt.in_range, GoInt.min_int, GoInt.max_int. lia.
Qed.

(** ** main *)

Lemma main_generate pageSize cpus f r :
  main pageSize cpus f = Generate r →
  directory r = default [] (directoryFlag f)
  ∧ startNum r = default 0 (startFlag f) ∧ startNum r ≠ 0
  ∧ endNum r = default 0 (endFlag f) ∧ endNum r ≠ 0
  ∧ parseSize (default [] (sizeFlag f)) = inl (fileSize r) ∧ 0 < fileSize r
  ∧ filesPerDir r = default defaultFilesPerDir (filesPerDirFlag f)
  ∧ bufferSize r = getOptimalBufferSize pageSize
  ∧ noSubdirs r = default false (noSubdirsFlag f).
Proof.
  unfold main. case_match eqn:Hreq; [done|].
  apply orb_false_iff in Hreq as [Hreq _].
  apply orb_false_iff in Hreq as [Hreq He].
  apply orb_false_iff in Hreq as [_ Hs].
  destruct (parseSize _) as [sz|e]; [|done].
  case_match eqn:Hsz; [done|]. intros [= <-]. simpl.
  repeat split; try done; lia.
Qed.

Lemma main_usage pageSize cpus f :
  default 0 (startFlag f) = 0 ∨ default 0 (endFlag f) = 0 →
  main pageSize cpus f = UsageExit 1.
Proof.
  unfold main. intros [->| ->]; simpl; by rewrite ?orb_true_r.
Qed.

Lemma main_filesPerDir pageSize cpus f v :
  main pageSize cpus (withFilesPerDir v f) =
    match main pageSize cpus f with
    | Generate r =>
      Generate {| directory := directory r; startNum := startNum r;
                  endNum := endNum r; fileSize := fileSize r;
                  filesPerDir := default defaultFilesPerDir v;
                  bufferSize := bufferSize r; numWorkers := numWorkers r;
                  noSubdirs := noSubdirs r |}
    | o => o
    end.
Proof.
  unfold main, withFilesPerDir. simpl.
  case_match; [done|]. destruct (parseSize _); [|done]. by case_match.
Qed.

(** C9: the division of the index by filesPerDir is unguarded.  With
    filesPerDir ≠ 0 the path computation returns a path; with filesPerDir = 0
    and subdirectories in use the division panics at the first index the
    producer reaches; and main does not look at the value, so giving
    --files-per-dir=0 changes neither whether generation starts nor anything
    but the filesPerDir handed to it. *)
Theorem filePath_division_unguarded dir i endN perDir flat pageSize cpus f :
  (perDir ≠ 0 → is_Some (filePath dir i perDir flat))
  ∧ filePath dir i 0 false = None
  ∧ (i ≤ endN →
     ∀ fuel, producer (S fuel) dir i endN 0 false = ([], Panicked))
  ∧ generates (main pageSize cpus (withFilesPerDir (Some 0) f))
    = generates (main pageSize cpus f)
  ∧ (∀ r, main pageSize cpus (withFilesPerDir (Some 0) f) = Generate r →
       filesPerDir r = 0).
Proof.
  split; [intros H; apply filePath_total; by right|].
  split; [done|]. split.
  { intros Hi fuel. simpl. by assert ((i <=? endN) = true) as -> by lia. }
  rewrite main_filesPerDir. split.
  - by destruct (main pageSize cpus f).
  - intros r. destruct (main pageSize cpus f); try done. by intros [= <-].
Qed.

Lemma filePath_division_unguarded_witness :
  is_Some (filePath (str ".out") 1 10000 false)
  ∧ (∀ fuel, producer (S fuel) (str ".out") 1 3 0 false = ([], Panicked))
  ∧ generates (main 4096 8 (withFilesPerDir (Some 0) sampleFlags)) = true.
Proof.
  destruct (filePath_division_unguarded (str ".out") 1 3 10000 false
              4096 8 sampleFlags) as (H1 & _ & H3 & H4 & _).
  split; [apply H1; lia|]. split; [apply H3; lia|].
  rewrite H4. by vm_compute.
Defined.

(** C10, as the code has it: --start=0 and --end=0 are taken for a missing
    flag: with either, main prints the usage and exits with status 1,
    exactly as when the flag is left out, so no generation is ever started
    with a start or end index of 0; negative values pass the check of the
    required flags. *)
Theorem main_zero_index_is_missing pageSize cpus f :
  main pageSize cpus (withStart (Some 0) f) = UsageExit 1
  ∧ main pageSize cpus (withStart None f) = UsageExit 1
  ∧ main pageSize cpus (withEnd (Some 0) f) = UsageExit 1
  ∧ main pageSize cpus (withEnd None f) = UsageExit 1
  ∧ (∀ r, main pageSize cpus f = Generate r → startNum r ≠ 0 ∧ endNum r ≠ 0)
  ∧ (∀ s e,
       s < 0 → e < 0 →
       default [] (directoryFlag f) ≠ [] → default [] (sizeFlag f) ≠ [] →
       main pageSize cpus (withStart (Some s) (withEnd (Some e) f))
       ≠ UsageExit 1
       ∧ ∀ fileSize,
           parseSize (default [] (sizeFlag f)) = inl fileSize → 0 < fileSize →
           ∃ r, main pageSize cpus (withStart (Some s) (withEnd (Some e) f))
                = Generate r
                ∧ startNum r = s ∧ endNum r = e).
Proof.
  repeat split; try (apply main_usage; simpl; auto).
  - by apply main_generate in H as (_ & _ & ? & _).
  - by apply main_generate in H as (_ & _ & _ & _ & ? & _).
  - unfold main. simpl.
    rewrite !bool_decide_eq_false_2 by done.
    assert ((s =? 0) = false) as -> by lia.
    assert ((e =? 0) = false) as -> by lia. simpl.
    destruct (parseSize _); [|done]. by case_match.
  - intros fileSize Hsz Hpos. unfold main. simpl.
    rewrite !bool_decide_eq_false_2 by done.
    assert ((s =? 0) = false) as -> by lia.
    assert ((e =? 0) = false) as -> by lia. simpl.
    rewrite Hsz. assert ((fileSize <=? 0) = false) as -> by lia.
    by eexists.
Qed.

Lemma main_zero_index_is_missing_witness :
  main 4096 8 (withStart (Some 0) sampleFlags) = UsageExit 1
  ∧ main 4096 8 (withStart None sampleFlags) = UsageExit 1
  ∧ ∃ r, main 4096 8 (withStart (Some (-5)) (withEnd (Some (-2)) sampleFlags))
         = Generate r
         ∧ startNum r = -5 ∧ endNum r = -2.
Proof.
  destruct (main_zero_index_is_missing 4096 8 sampleFlags)
    as (H1 & H2 & _ & _ & _ & H6).
  split; [done|]. split; [done|].
  destruct (H6 (-5) (-2)) as [_ H]; try done; try lia.
  apply (H 1024); [by vm_compute|lia].
Defined.

(** C10, as stated, fails: a run with index 0 can be requested.  With
    --start=-1 --end=1 neither flag is 0, so main starts the generation, and
    the producer of that run sends the path of index 0 between those of -1
    and 1. *)
Lemma main_range_across_zero_has_index_zero :
  ∃ r,
    main 4096 8 (withStart (Some (-1)) (withEnd (Some 1) sampleFlags))
    = Generate r
    ∧ startNum r = -1 ∧ endNum r = 1
    ∧ producer 4 (directory r) (startNum r) (endNum r) (filesPerDir r)
               (noSubdirs r)
      = ([str ".out/subdir_0/file_-1.bin"; str ".out/subdir_0/file_0.bin";
          str ".out/subdir_0/file_1.bin"], Closed)
    ∧ filePath (directory r) 0 (filesPerDir r) (noSubdirs r)
      = Some (str ".out/subdir_0/file_0.bin").
Proof. eexists. split; [by vm_compute|]. by vm_compute. Qed.

(** ** The buffer size of a run *)

Lemma worker_calls_bufferSize env fuel id fs bs :
  ∀ jobs w out w',
    worker env fuel id jobs fs bs w = (out, w') →
    ∃ new, trace w' = trace w ++ new ∧ Forall (λ c, c.2 = bs) (calls new).
Proof.
  induction jobs as [|path jobs IH]; intros w out w'; simpl.
  { intros [= _ <-]. exists []. by rewrite app_nil_r. }
  destruct (createRandomFile env fuel path fs bs w) as [o w1] eqn:Hrun.
  apply createRandomFile_trace in Hrun as [[cs Hcs] _].
  assert (Forall (λ c, c.2 = bs)
            (calls ([EvCall path fs bs] ++ map (EvChunk path) cs))) as Hcall.
  { rewrite calls_app. unfold calls at 2. rewrite omap_map_None by done.
    by repeat constructor. }
  destruct o as [r| |].
  - intros Hw. apply IH in Hw as (new & Hnew & Hall).
    destruct r as [e|]; simpl in Hnew; rewrite Hcs in Hnew;
      rewrite <- !(assoc_L (++)) in Hnew; rewrite (assoc_L (++) [_]) in Hnew;
      (eexists; split; [exact Hnew|]);
      rewrite !calls_app, !Forall_app; rewrite calls_app, Forall_app in Hcall;
      repeat split; try done; try apply Hcall; by repeat constructor.
  - intros [= _ <-]. eauto.
  - intros [= _ <-]. eauto.
Qed.

(** C6: for a page size p whose 256-fold is a machine integer, the buffer
    sizer returns clamp(max(p * 256, 1 MiB), 256 KiB, 16 MiB), a value in
    [262144, 16777216]; main computes it once and that one value is what
    every worker is started with and what every call of createRandomFile
    made by a worker receives. *)
Theorem getOptimalBufferSize_clamped pageSize :
  GoInt.in_range (pageSize * 256) →
  getOptimalBufferSize pageSize
  = clamp (Z.max (pageSize * 256) 1048576) 262144 16777216
  ∧ 262144 ≤ getOptimalBufferSize pageSize ≤ 16777216
  ∧ ∀ cpus f r,
      main pageSize cpus f = Generate r →
      bufferSize r = getOptimalBufferSize pageSize
      ∧ (∀ a, a ∈ startWorkers (numWorkers r) (fileSize r) (bufferSize r) →
           a.2 = getOptimalBufferSize pageSize)
      ∧ (∀ env fuel id jobs w out w',
           worker env fuel id jobs (fileSize r) (bufferSize r) w = (out, w') →
           ∃ new, trace w' = trace w ++ new
             ∧ Forall (λ c, c.2 = getOptimalBufferSize pageSize) (calls new)).
Proof.
  intros Hp. split; [|split].
  - unfold getOptimalBufferSize, GoInt.mul, clamp, minBufferSize, maxBufferSize.
    rewrite wrap_id by done. repeat case_match; lia.
  - apply getOptimalBufferSize_bounds.
  - intros cpus f r Hr.
    apply main_generate in Hr as (_ & _ & _ & _ & _ & _ & _ & _ & Hb & _).
    rewrite Hb. split; [done|]. split.
    + intros a Ha. unfold startWorkers in Ha.
      apply list_elem_of_fmap in Ha as (k & -> & _). done.
    + intros env fuel id jobs w out w' Hw.
      by apply worker_calls_bufferSize in Hw.
Qed.

Lemma getOptimalBufferSize_clamped_witness :
  getOptimalBufferSize 4096 = 1048576
  ∧ getOptimalBufferSize 65536 = 16777216.
Proof.
  split.
  - destruct (getOptimalBufferSize_clamped 4096) as [H _]; [|by rewrite H].
    unfold GoInt.in_range, GoInt.min_int, GoInt.max_int. lia.
  - destruct (getOptimalBufferSize_clamped 65536) as [H _]; [|by rewrite H].
    unfold GoInt.in_range, GoInt.min_int, GoInt.max_int. lia.
Defined.

(** ** The worker's error policy *)

Lemma logLine_has_path id e path :
  contains (errMsg e) path = true → contains (logLine id e) path = true.
Proof.
  intros H. unfold logLine. apply contains_elim in H as (pre & post & ->).
  replace (str "Worker " ++ fmt.d id ++ str ": " ++ (pre ++ path ++ post)
           ++ [ascii_of_nat 10])
    with ((str "Worker " ++ fmt.d id ++ str ": " ++ pre) ++ path
          ++ (post ++ [ascii_of_nat 10])).
  - apply contains_intro.
  - by rewrite <- !(assoc_L (++)).
Qed.

(** The error policy of the worker on every run: an error of
    createRandomFile on one job does not stop the worker.  The worker
    returns only after it has called createRandomFile once for every job of
    its sequence, in order, with no second call for a failed job; for each
    failed job it prints one line that starts with its identity, and for the
    errors of lines 107, 113, 134 and 142 (directory creation, file
    creation, write, flush) that line has the path of the file. *)
Theorem worker_continues_after_errors env fuel id jobs fileSize bufferSize w :
  0 ≤ fileSize ≤ GoInt.max_int → 0 < bufferSize →
  (Z.to_nat fileSize < fuel)%nat →
  ∃ rs w',
    worker env fuel id jobs fileSize bufferSize w = (Ret (), w')
    ∧ length rs = length jobs
    ∧ trace w' =
        trace w ++ concat (zip_with (jobEvents id fileSize bufferSize) jobs rs)
    ∧ calls (trace w') =
        calls (trace w) ++ map (λ p, (p, fileSize, bufferSize)) jobs
    ∧ Forall2
        (λ path r, ∀ e,
           runErr r = Some e →
           str "Worker " ++ fmt.d id ++ str ": " `prefix_of` logLine id e
           ∧ (errKind e ≠ RandomSourceError →
              contains (logLine id e) path = true))
        jobs rs.
Proof.
  intros Hfs Hbs Hfuel.
  destruct (worker_runs env fuel id fileSize bufferSize Hfs Hbs Hfuel jobs w)
    as (rs & w' & Hw & Hlen & Htr & Hrep & _).
  exists rs, w'. repeat split; try done.
  - by rewrite Htr, calls_app, calls_jobs.
  - eapply Forall2_impl; [exact Hrep|]. intros path r H e He. split.
    + unfold logLine. rewrite !(assoc_L (++)).
      by apply prefix_app_r, prefix_app_r.
    + intros Hk. apply logLine_has_path.
      destruct (H e He) as [[? _]|[_ ?]]; done.
Qed.

Lemma worker_continues_after_errors_witness :
  ∃ rs w',
    worker entropyFailureEnv 5 7 [str ".out/file_1.bin"; str ".out/file_2.bin"]
           4 2 emptyWorld = (Ret (), w')
    ∧ length rs = 2%nat
    ∧ trace w' =
        trace emptyWorld
        ++ concat (zip_with (jobEvents 7 4 2)
                     [str ".out/file_1.bin"; str ".out/file_2.bin"] rs)
    ∧ calls (trace w') =
        calls (trace emptyWorld)
        ++ map (λ p, (p, 4, 2)) [str ".out/file_1.bin"; str ".out/file_2.bin"]
    ∧ Forall2
        (λ path r, ∀ e,
           runErr r = Some e →
           str "Worker " ++ fmt.d 7 ++ str ": " `prefix_of` logLine 7 e
           ∧ (errKind e ≠ RandomSourceError →
              contains (logLine 7 e) path = true))
        [str ".out/file_1.bin"; str ".out/file_2.bin"] rs.
Proof.
  apply (worker_continues_after_errors entropyFailureEnv 5 7
           [str ".out/file_1.bin"; str ".out/file_2.bin"] 4 2 emptyWorld).
  - unfold GoInt.max_int. lia.
  - lia.
  - simpl. lia.
Defined.

(** C7: the code at the failing input.  Worker 0 of a run with 1 KB files
    and the buffer size of a 4096-byte page receives two jobs, and the
    entropy source fails on the first read for the first of them.  The
    worker does go on to the second job and retries nothing, and it prints
    one line with its identity for the failed job; but that line does not
    have the path of the file in it, so the log does not tell which file
    failed: of the five error texts of createRandomFile, the one of line 130
    alone is built without the path. *)
Lemma worker_entropy_error_log_lacks_path :
  let jobs := [str ".out/file_1.bin"; str ".out/file_2.bin"] in
  let e := Errorf RandomSourceError
             [str "error generating random data: "; str "unexpected EOF"] in
  let run := worker entropyFailureEnv 2 0 jobs 1024 (getOptimalBufferSize 4096)
                    emptyWorld in
  run.1 = Ret ()
  ∧ returns (trace run.2)
    = [(str ".out/file_1.bin", Some e); (str ".out/file_2.bin", None)]
  ∧ printed (trace run.2) = [logLine 0 e]
  ∧ logLine 0 e
    = str "Worker 0: error generating random data: unexpected EOF"
      ++ [ascii_of_nat 10]
  ∧ contains (logLine 0 e) (str ".out/file_1.bin") = false
  ∧ length <$> files run.2 !! str ".out/file_2.bin" = Some 1024%nat.
Proof. by vm_compute. Qed.

(** The same run when it is the creation of the first file that fails
    (line 113): here the printed line does name the file. *)
Example worker_create_error_log_has_path :
  let jobs := [str ".out/file_1.bin"; str ".out/file_2.bin"] in
  let e := Errorf FileCreateError
             [str "error creating file "; str ".out/file_1.bin"; str ": ";
              str "permission denied"] in
  let run := worker fileCreateFailureEnv 2 0 jobs 1024
                    (getOptimalBufferSize 4096) emptyWorld in
  run.1 = Ret ()
  ∧ returns (trace run.2)
    = [(str ".out/file_1.bin", Some e); (str ".out/file_2.bin", None)]
  ∧ printed (trace run.2) = [logLine 0 e]
  ∧ logLine 0 e
    = str "Worker 0: error creating file .out/file_1.bin: permission denied"
      ++ [ascii_of_nat 10]
  ∧ contains (logLine 0 e) (str ".out/file_1.bin") = true.
Proof. by vm_compute. Qed.



Example worker_statistics_with_failure :
  let run := worker entropyFailureEnv 5 7
               [str ".out/file_1.bin"; str ".out/file_2.bin"] 4 2 emptyWorld in
  length <$> files run.2 !! str ".out/file_1.bin" = Some 0%nat
  ∧ length <$> files run.2 !! str ".out/file_2.bin" = Some 4%nat
  ∧ completed (monitor (sent (trace run.2)) noStats) = 2
  ∧ totalBytes (monitor (sent (trace run.2)) noStats) = 8.
Proof. by vm_compute. Qed.

(** ** Strings *)

Lemma HasSuffix_spec s u : strings.HasSuffix s u = true ↔ u `suffix_of` s.
Proof.
  unfold strings.HasSuffix.
  rewrite andb_true_iff, !bool_decide_eq_true. split.
  - intros [_ <-]. apply suffix_drop.
  - intros [k ->]. rewrite length_app. split; [lia|].
    replace (length k + length u - length u)%nat with (length k) by lia.
    by rewrite drop_app_length.
Qed.

Lemma HasSuffix_false s u : strings.HasSuffix s u = false ↔ ¬ u `suffix_of` s.
Proof. rewrite <- HasSuffix_spec. by destruct (strings.HasSuffix s u). Qed.

Lemma TrimSuffix_app k u : strings.TrimSuffix (k ++ u) u = k.
Proof.
  unfold strings.TrimSuffix.
  rewrite (proj2 (HasSuffix_spec (k ++ u) u)) by by apply suffix_app_r.
  rewrite length_app.
  replace (length k + length u - length u)%nat with (length k) by lia.
  by rewrite take_app_length.
Qed.

Lemma trimLeftFunc_app f a b :
  Forall (λ c, f c = true) a →
  strings.trimLeftFunc f (a ++ b) = strings.trimLeftFunc f b.
Proof. induction 1 as [|c a Hc _ IH]; simpl; [done|]. by rewrite Hc. Qed.

Lemma trimLeftFunc_bare f s :
  (∀ c, head s = Some c → f c = false) → strings.trimLeftFunc f s = s.
Proof. destruct s as [|c s]; simpl; [done|]. intros H. by rewrite H. Qed.

Lemma TrimFunc_bare f l s r :
  Forall (λ c, f c = true) l → Forall (λ c, f c = true) r → Bare f s →
  strings.TrimFunc f (l ++ s ++ r) = s.
Proof.
  intros Hl Hr [Hh Ht]. unfold strings.TrimFunc, strings.trimRightFunc.
  rewrite trimLeftFunc_app by done.
  destruct s as [|c s].
  { simpl. rewrite <- (app_nil_r r), trimLeftFunc_app by done. simpl.
    rewrite <- (app_nil_r (reverse [])). done. }
  rewrite (trimLeftFunc_bare f ((c :: s) ++ r))
    by (simpl; intros c' [= <-]; by apply Hh).
  rewrite reverse_app, trimLeftFunc_app by by apply Forall_reverse.
  rewrite trimLeftFunc_bare; [by rewrite reverse_involutive|].
  intros c' Hc'. apply Ht. by rewrite head_reverse in Hc'.
Qed.

(** ** The unit loop *)

Lemma findUnit_None s us :
  findUnit s us = None ↔ ∀ u, u ∈ us → ¬ u `suffix_of` s.
Proof.
  induction us as [|u us IH]; simpl.
  - split; [|done]. intros _ u Hu. by apply elem_of_nil in Hu.
  - destruct (strings.HasSuffix s u) eqn:Hs.
    + split; [done|]. intros H. exfalso.
      apply (H u); [by left|by apply HasSuffix_spec].
    + rewrite IH. split.
      * intros H v Hv. apply elem_of_cons in Hv as [->|Hv]; [|by apply H].
        by apply HasSuffix_false.
      * intros H v Hv. apply H. by right.
Qed.

Lemma findUnit_Some s us value unit :
  findUnit s us = Some (value, unit) →
  unit ∈ us ∧ unit `suffix_of` s
  ∧ value = strings.TrimSpace (strings.TrimSuffix s unit).
Proof.
  induction us as [|u us IH]; simpl; [done|].
  destruct (strings.HasSuffix s u) eqn:Hs.
  - intros [= <- <-]. split; [by left|]. split; [|done]. by apply HasSuffix_spec.
  - intros H. destruct (IH H) as (? & ? & ?). split; [by right|done].
Qed.

Lemma findUnit_longest s us value unit :
  earlierNotSuffix us = true →
  findUnit s us = Some (value, unit) →
  ∀ u, u ∈ us → u `suffix_of` s → (length u ≤ length unit)%nat.
Proof.
  induction us as [|u0 us IH]; simpl; [done|].
  rewrite andb_true_iff, forallb_forall. intros [Hu0 Hus].
  destruct (strings.HasSuffix s u0) eqn:Hs.
  - intros [= <- <-] v Hv Hvs.
    apply elem_of_cons in Hv as [->|Hv]; [done|].
    apply HasSuffix_spec in Hs.
    destruct (suffix_weak_total _ _ _ Hs Hvs) as [H|H].
    + exfalso. apply list_elem_of_In in Hv. apply Hu0 in Hv.
      apply negb_true_iff, bool_decide_eq_false in Hv. done.
    + by apply suffix_length.
  - intros H v Hv Hvs. apply elem_of_cons in Hv as [->|Hv].
    + by apply HasSuffix_false in Hs.
    + by eapply IH.
Qed.

Lemma findUnit_same_units s us1 us2 :
  earlierNotSuffix us1 = true → earlierNotSuffix us2 = true →
  (∀ u, u ∈ us1 ↔ u ∈ us2) →
  findUnit s us1 = findUnit s us2.
Proof.
  intros H1 H2 Hsame.
  destruct (findUnit s us1) as [[v1 u1]|] eqn:E1,
           (findUnit s us2) as [[v2 u2]|] eqn:E2; try done.
  - destruct (findUnit_Some _ _ _ _ E1) as (Hin1 & Hs1 & ->).
    destruct (findUnit_Some _ _ _ _ E2) as (Hin2 & Hs2 & ->).
    pose proof (findUnit_longest _ _ _ _ H1 E1 u2 (proj2 (Hsame _) Hin2) Hs2)
      as Hle1.
    pose proof (findUnit_longest _ _ _ _ H2 E2 u1 (proj1 (Hsame _) Hin1) Hs1)
      as Hle2.
    assert (u1 = u2) as ->; [|done].
    destruct (suffix_weak_total _ _ _ Hs1 Hs2) as [H|H].
    + by apply suffix_length_eq.
    + symmetry. by apply suffix_length_eq.
  - exfalso. destruct (findUnit_Some _ _ _ _ E1) as (Hin1 & Hs1 & _).
    by apply (proj1 (findUnit_None s us2) E2 u1); [apply Hsame|].
  - exfalso. destruct (findUnit_Some _ _ _ _ E2) as (Hin2 & Hs2 & _).
    by apply (proj1 (findUnit_None s us1) E1 u2); [apply Hsame|].
Qed.

Lemma units_order : earlierNotSuffix units = true.
Proof. by vm_compute. Qed.

Lemma units_same u : u ∈ units ↔ u ∈ unitsLongestFirst.
Proof.
  unfold units, unitsLongestFirst. rewrite !elem_of_cons, !elem_of_nil. tauto.
Qed.

Lemma parseSize_InvalidFormat sizeStr :
  parseSize sizeStr = inr InvalidFormat
  ↔ findUnit (normalize sizeStr) units = None.
Proof.
  unfold parseSize. destruct (findUnit _ units) as [[value unit]|]; [|done].
  split; [|done]. destruct (strconv.Atoi value); [|done].
  by repeat case_match.
Qed.

(** C4: the unit that parseSize selects is the longest recognised unit that
    is a suffix of the normalised input.  The loop takes the first unit of
    its list that matches, and no unit of that list is a suffix of a later
    one, so the loop selects the same unit (and the same text before it) as
    a loop over the units ordered longest first; there is no match exactly
    when no unit is a suffix, which is when parseSize reports the invalid
    format. *)
Theorem parseSize_selects_longest_unit (sizeStr : gostring) :
  let s := normalize sizeStr in
  (∀ value unit,
     findUnit s units = Some (value, unit) →
     unit ∈ units ∧ unit `suffix_of` s
     ∧ ∀ u, u ∈ units → u `suffix_of` s → (length u ≤ length unit)%nat)
  ∧ findUnit s units = findUnit s unitsLongestFirst
  ∧ (findUnit s units = None ↔ ∀ u, u ∈ units → ¬ u `suffix_of` s)
  ∧ (parseSize sizeStr = inr InvalidFormat ↔ findUnit s units = None).
Proof.
  intros s. split; [|split; [|split]].
  - intros value unit H.
    destruct (findUnit_Some _ _ _ _ H) as (Hin & Hs & _).
    split; [done|]. split; [done|].
    by apply (findUnit_longest s units value unit units_order).
  - apply findUnit_same_units; [by vm_compute..|apply units_same].
  - apply findUnit_None.
  - apply parseSize_InvalidFormat.
Qed.

Lemma parseSize_selects_longest_unit_witness :
  let s := normalize (str "'2 gigabytes'") in
  str "GIGABYTES" ∈ units ∧ str "GIGABYTES" `suffix_of` s
  ∧ ∀ u, u ∈ units → u `suffix_of` s → (length u ≤ length (str "GIGABYTES"))%nat.
Proof.
  destruct (parseSize_selects_longest_unit (str "'2 gigabytes'")) as (H & _).
  apply (H (str "2") (str "GIGABYTES")). by vm_compute.
Defined.

(** ** strconv.Atoi *)

Lemma wrap_mod a : GoInt.wrap a mod 2 ^ 64 = a mod 2 ^ 64.
Proof.
  unfold GoInt.wrap. rewrite Zminus_mod_idemp_l. f_equal. lia.
Qed.

Lemma wrap_congr a b : a mod 2 ^ 64 = b mod 2 ^ 64 → GoInt.wrap a = GoInt.wrap b.
Proof.
  intros H. unfold GoInt.wrap. f_equal.
  by rewrite <- (Zplus_mod_idemp_l a), H, Zplus_mod_idemp_l.
Qed.

Lemma wrap_mul_l a b : GoInt.wrap (GoInt.wrap a * b) = GoInt.wrap (a * b).
Proof.
  apply wrap_congr. by rewrite Zmult_mod, wrap_mod, <- Zmult_mod.
Qed.

Lemma digit_isDigit c :
  strconv.digit c = if isDigit c then Some (code c - 48) else None.
Proof. done. Qed.

Lemma isDigit_bounds c : isDigit c = true → 0 ≤ code c - 48 ≤ 9.
Proof. unfold isDigit. lia. Qed.

Lemma accumulate_mono s :
  ∀ n, Forall (λ c, isDigit c = true) s → 0 ≤ n → n ≤ accumulate s n.
Proof.
  induction s as [|c s IH]; intros n Hs Hn; simpl; [done|].
  apply Forall_cons in Hs as [Hc Hs]. apply isDigit_bounds in Hc.
  etrans; [|apply IH]; try done; lia.
Qed.

Lemma parseUintLoop_digits s :
  ∀ n, Forall (λ c, isDigit c = true) s → 0 ≤ n ≤ strconv.maxUint64 →
    strconv.parseUintLoop s n =
      if accumulate s n <=? strconv.maxUint64 then inl (accumulate s n)
      else inr strconv.ErrRange.
Proof.
  induction s as [|c s IH]; intros n Hs Hn; simpl.
  { by assert ((n <=? strconv.maxUint64) = true) as -> by lia. }
  apply Forall_cons in Hs as [Hc Hs].
  rewrite digit_isDigit, Hc. apply isDigit_bounds in Hc as Hd.
  pose proof (accumulate_mono s (n * 10 + (code c - 48)) Hs ltac:(lia)) as Hm.
  unfold strconv.cutoff, strconv.maxUint64 in *.
  change (2 ^ 64 - 1) with 18446744073709551615 in *.
  change (18446744073709551615 `div` 10 + 1) with 1844674407370955162.
  destruct (Z.leb_spec 1844674407370955162 n).
  { by assert ((accumulate s (n * 10 + (code c - 48))
                <=? 18446744073709551615) = false) as -> by lia. }
  destruct (Z.ltb_spec 18446744073709551615 (n * 10 + (code c - 48))).
  { by assert ((accumulate s (n * 10 + (code c - 48))
                <=? 18446744073709551615) = false) as -> by lia. }
  apply IH; [done|lia].
Qed.

Lemma parseUintLoop_inl s :
  ∀ n m, strconv.parseUintLoop s n = inl m → Forall (λ c, isDigit c = true) s.
Proof.
  induction s as [|c s IH]; intros n m; simpl; [done|].
  rewrite digit_isDigit. destruct (isDigit c) eqn:Hc; [|done].
  repeat case_match; try done. intros Hl. constructor; [done|by eapply IH].
Qed.

Lemma IntLiteral_inv s n :
  IntLiteral s n →
  ∃ sign ds,
    s = sign ++ ds ∧ ds ≠ [] ∧ Forall (λ c, isDigit c = true) ds
    ∧ ((sign = [] ∧ n = digitsValue ds)
       ∨ (sign = ["+"%char] ∧ n = digitsValue ds)
       ∨ (sign = ["-"%char] ∧ n = - digitsValue ds)).
Proof.
  destruct 1 as [ds|ds|ds].
  - exists [], ds. repeat split; try done. by left.
  - exists ["+"%char], ds. repeat split; try done. right. by left.
  - exists ["-"%char], ds. repeat split; try done. right. by right.
Qed.

Lemma digit_not_sign c :
  isDigit c = true → c ≠ "+"%char ∧ c ≠ "-"%char.
Proof. split; intros ->; done. Qed.

Lemma ParseUint_digits ds :
  ds ≠ [] → Forall (λ c, isDigit c = true) ds →
  strconv.ParseUint ds =
    if digitsValue ds <=? strconv.maxUint64 then inl (digitsValue ds)
    else inr strconv.ErrRange.
Proof.
  intros Hne Hds. unfold strconv.ParseUint. destruct ds as [|c ds]; [done|].
  apply parseUintLoop_digits; [done|]. unfold strconv.maxUint64. lia.
Qed.

Lemma digitsValue_nonneg ds :
  Forall (λ c, isDigit c = true) ds → 0 ≤ digitsValue ds.
Proof. intros H. by apply (accumulate_mono ds 0). Qed.

Lemma ParseInt_unsigned c s :
  c ≠ "+"%char → c ≠ "-"%char →
  strconv.ParseInt (c :: s) =
    match strconv.ParseUint (c :: s) with
    | inr e => inr e
    | inl un => if 2 ^ 63 <=? un then inr strconv.ErrRange else inl un
    end.
Proof.
  intros Hp Hm. unfold strconv.ParseInt.
  rewrite !bool_decide_eq_false_2 by done. cbn [orb negb andb].
  destruct (strconv.ParseUint (c :: s)); [|done]. by case_match.
Qed.

Lemma ParseInt_plus s :
  strconv.ParseInt ("+"%char :: s) =
    match strconv.ParseUint s with
    | inr e => inr e
    | inl un => if 2 ^ 63 <=? un then inr strconv.ErrRange else inl un
    end.
Proof.
  unfold strconv.ParseInt.
  rewrite bool_decide_eq_true_2, bool_decide_eq_false_2 by done.
  cbn [orb negb andb]. destruct (strconv.ParseUint s); [|done]. by case_match.
Qed.

Lemma ParseInt_minus s :
  strconv.ParseInt ("-"%char :: s) =
    match strconv.ParseUint s with
    | inr e => inr e
    | inl un => if 2 ^ 63 <? un then inr strconv.ErrRange else inl (- un)
    end.
Proof.
  unfold strconv.ParseInt.
  rewrite bool_decide_eq_false_2, bool_decide_eq_true_2 by done.
  cbn [orb negb andb]. by destruct (strconv.ParseUint s).
Qed.

Lemma signed_range_pos v :
  0 ≤ v →
  match (if v <=? strconv.maxUint64 then inl v else inr strconv.ErrRange)
        : Z + strconv.NumError with
  | inr e => inr e
  | inl un => if 2 ^ 63 <=? un then inr strconv.ErrRange else inl un
  end = if bool_decide (GoInt.in_range v) then inl v else inr strconv.ErrRange.
Proof.
  intros Hv.
  unfold GoInt.in_range, GoInt.min_int, GoInt.max_int, strconv.maxUint64.
  destruct (Z.leb_spec v (2 ^ 64 - 1)); [destruct (Z.leb_spec (2 ^ 63) v)|];
    case_bool_decide; try done; lia.
Qed.

Lemma signed_range_neg v :
  0 ≤ v →
  match (if v <=? strconv.maxUint64 then inl v else inr strconv.ErrRange)
        : Z + strconv.NumError with
  | inr e => inr e
  | inl un => if 2 ^ 63 <? un then inr strconv.ErrRange else inl (- un)
  end = if bool_decide (GoInt.in_range (- v)) then inl (- v)
        else inr strconv.ErrRange.
Proof.
  intros Hv.
  unfold GoInt.in_range, GoInt.min_int, GoInt.max_int, strconv.maxUint64.
  destruct (Z.leb_spec v (2 ^ 64 - 1)); [destruct (Z.ltb_spec (2 ^ 63) v)|];
    case_bool_decide; try done; lia.
Qed.

(** Atoi on a decimal integer: its value when that is a machine integer,
    the range error otherwise. *)
Lemma Atoi_literal s n :
  IntLiteral s n →
  strconv.Atoi s =
    if bool_decide (GoInt.in_range n) then inl n else inr strconv.ErrRange.
Proof.
  intros H. apply IntLiteral_inv in H as (sign & ds & -> & Hne & Hds & Hcase).
  pose proof (ParseUint_digits ds Hne Hds) as HU.
  pose proof (digitsValue_nonneg ds Hds) as H0.
  unfold strconv.Atoi.
  destruct Hcase as [[-> ->]|[[-> ->]|[-> ->]]]; cbn [app].
  - destruct ds as [|c ds]; [done|].
    apply Forall_cons in Hds as Hc. destruct Hc as [Hc _].
    apply digit_not_sign in Hc as [Hp Hm].
    rewrite ParseInt_unsigned, HU by done. by apply signed_range_pos.
  - rewrite ParseInt_plus, HU. by apply signed_range_pos.
  - rewrite ParseInt_minus, HU. by apply signed_range_neg.
Qed.

(** Whatever Atoi accepts is a decimal integer that is a machine integer. *)
Lemma Atoi_inl s n :
  strconv.Atoi s = inl n → IntLiteral s n ∧ GoInt.in_range n.
Proof.
  unfold strconv.Atoi. destruct s as [|c s]; [done|].
  assert (∀ t un, strconv.ParseUint t = inl un →
            t ≠ [] ∧ Forall (λ c, isDigit c = true) t ∧ un = digitsValue t
            ∧ 0 ≤ un) as HU.
  { intros t un Ht. destruct t as [|c' t]; [done|].
    unfold strconv.ParseUint in Ht.
    pose proof (parseUintLoop_inl _ _ _ Ht) as Hd.
    rewrite parseUintLoop_digits in Ht
      by (try done; unfold strconv.maxUint64; lia).
    case_match; [|done]. injection Ht as <-.
    repeat split; try done. by apply (digitsValue_nonneg (c' :: t)). }
  unfold GoInt.in_range, GoInt.min_int, GoInt.max_int.
  destruct (decide (c = "-"%char)) as [->|Hm];
    [|destruct (decide (c = "+"%char)) as [->|Hp]].
  - rewrite ParseInt_minus.
    destruct (strconv.ParseUint s) as [un|] eqn:E; [|done].
    apply HU in E as (Hne & Hds & -> & H0).
    case_match; [done|]. intros [= <-]. split; [by constructor|lia].
  - rewrite ParseInt_plus.
    destruct (strconv.ParseUint s) as [un|] eqn:E; [|done].
    apply HU in E as (Hne & Hds & -> & H0).
    case_match; [done|]. intros [= <-]. split; [by constructor|lia].
  - rewrite ParseInt_unsigned by done.
    destruct (strconv.ParseUint (c :: s)) as [un|] eqn:E; [|done].
    apply HU in E as (Hne & Hds & -> & H0).
    case_match; [done|]. intros [= <-]. split; [by constructor|lia].
Qed.

(** ** The size parser on well-formed input *)

Lemma char_classes c :
  (isLiteralChar c = true →
   isQuote c = false ∧ strings.isSpace c = false ∧ strings.upper c = c
   ∧ isUpperLetter c = false)
  ∧ (strings.isSpace c = true →
     isQuote c = false ∧ strings.upper c = c ∧ isUpperLetter c = false)
  ∧ (isUpperLetter (strings.upper c) = true →
     isQuote c = false ∧ strings.isSpace c = false).
Proof.
  destruct c as [[] [] [] [] [] [] [] []]; vm_compute;
    (split; [|split]); intros H; first [discriminate H | by repeat split].
Qed.

Lemma units_upper : Forall (Forall (λ c, isUpperLetter c = true)) units.
Proof. unfold units. by repeat constructor. Qed.

Lemma units_nonempty : Forall (λ u, u ≠ []) units.
Proof. unfold units. by repeat constructor. Qed.

Lemma head_elem_of {A} (l : list A) x : head l = Some x → x ∈ l.
Proof. destruct l; [done|]. intros [= ->]. by left. Qed.

Lemma last_elem_of {A} (l : list A) x : last l = Some x → x ∈ l.
Proof.
  intros H. apply last_Some in H as [l' ->]. apply elem_of_app. right. by left.
Qed.

Lemma Bare_Forall f s : Forall (λ c, f c = false) s → Bare f s.
Proof.
  intros H. rewrite Forall_forall in H.
  split; intros c Hc; apply H; [by apply head_elem_of|by apply last_elem_of].
Qed.

Lemma Bare_ends f a m b :
  a ≠ [] → b ≠ [] →
  Forall (λ c, f c = false) a → Forall (λ c, f c = false) b →
  Bare f (a ++ m ++ b).
Proof.
  intros Ha Hb Hfa Hfb. rewrite Forall_forall in Hfa, Hfb. split; intros c.
  - rewrite head_app. destruct a as [|x a]; [done|]. simpl.
    intros [= <-]. apply Hfa. by left.
  - rewrite !last_app. destruct (last b) as [y|] eqn:E.
    + intros [= <-]. by apply Hfb, last_elem_of.
    + by apply last_None in E.
Qed.

Lemma IntLiteral_chars lit n :
  IntLiteral lit n →
  lit ≠ [] ∧ Forall (λ c, isLiteralChar c = true) lit
  ∧ ∃ d, last lit = Some d ∧ isDigit d = true.
Proof.
  intros H. apply IntLiteral_inv in H as (sign & ds & -> & Hne & Hds & Hcase).
  assert (Forall (λ c, isLiteralChar c = true) ds) as Hlit.
  { eapply Forall_impl; [exact Hds|]. intros c Hc. unfold isLiteralChar.
    by rewrite Hc. }
  assert (∃ d, last ds = Some d ∧ isDigit d = true) as (d & Hd & Hdd).
  { destruct (last ds) as [d|] eqn:E; [|by apply last_None in E].
    exists d. split; [done|]. rewrite Forall_forall in Hds.
    by apply Hds, last_elem_of. }
  split; [by destruct sign, ds|]. split.
  - apply Forall_app. split; [|done].
    destruct Hcase as [[-> _]|[[-> _]|[-> _]]]; by repeat constructor.
  - exists d. by rewrite last_app, Hd.
Qed.

Lemma unit_text_chars u unit :
  unit ∈ units → strings.ToUpper u = unit →
  u ≠ [] ∧ Forall (λ c, isUpperLetter (strings.upper c) = true) u.
Proof.
  intros Hin Hup. pose proof units_upper as HU. pose proof units_nonempty as HN.
  rewrite Forall_forall in HU, HN. split.
  - intros ->. by apply (HN unit Hin).
  - specialize (HU unit Hin). rewrite <- Hup in HU. unfold strings.ToUpper in HU.
    by apply Forall_fmap in HU.
Qed.

Lemma ToUpper_fixed s :
  Forall (λ c, strings.upper c = c) s → strings.ToUpper s = s.
Proof.
  unfold strings.ToUpper. induction 1 as [|c s Hc _ IH]; simpl; [done|].
  by rewrite Hc, IH.
Qed.

Lemma normalize_valid q1 w1 lit n w2 u unit w3 q2 :
  Forall (λ c, isQuote c = true) q1 → Forall (λ c, isQuote c = true) q2 →
  Forall (λ c, strings.isSpace c = true) w1 →
  Forall (λ c, strings.isSpace c = true) w2 →
  Forall (λ c, strings.isSpace c = true) w3 →
  IntLiteral lit n → unit ∈ units → strings.ToUpper u = unit →
  normalize (q1 ++ w1 ++ lit ++ w2 ++ u ++ w3 ++ q2) = lit ++ w2 ++ unit.
Proof.
  intros Hq1 Hq2 Hw1 Hw2 Hw3 Hlit Hin Hup.
  destruct (IntLiteral_chars lit n Hlit) as (Hne & Hlc & _).
  destruct (unit_text_chars u unit Hin Hup) as (Hune & Huc).
  assert (Forall (λ c, isQuote c = false ∧ strings.isSpace c = false
                       ∧ strings.upper c = c) lit) as Hl1.
  { eapply Forall_impl; [exact Hlc|]. intros c Hc.
    by destruct (proj1 (char_classes c) Hc) as (? & ? & ? & _). }
  assert (Forall (λ c, isQuote c = false ∧ strings.isSpace c = false) u) as Hu1.
  { eapply Forall_impl; [exact Huc|]. intros c Hc.
    by apply (proj2 (proj2 (char_classes c))). }
  assert (∀ w, Forall (λ c, strings.isSpace c = true) w →
               Forall (λ c, isQuote c = false ∧ strings.upper c = c) w) as Hsp.
  { intros w Hw. eapply Forall_impl; [exact Hw|]. intros c Hc.
    by destruct (proj1 (proj2 (char_classes c)) Hc) as (? & ? & _). }
  unfold normalize, strings.Trim, strings.TrimSpace. fold isQuote.
  replace (q1 ++ w1 ++ lit ++ w2 ++ u ++ w3 ++ q2)
    with (q1 ++ (w1 ++ (lit ++ w2 ++ u) ++ w3) ++ q2)
    by (by rewrite <- !(assoc_L (++))).
  rewrite TrimFunc_bare; try done.
  2:{ apply Bare_Forall. rewrite !Forall_app. repeat split.
      - eapply Forall_impl; [exact (Hsp _ Hw1)|]. by intros c [? _].
      - eapply Forall_impl; [exact Hl1|]. by intros c (? & _).
      - eapply Forall_impl; [exact (Hsp _ Hw2)|]. by intros c [? _].
      - eapply Forall_impl; [exact Hu1|]. by intros c (? & _).
      - eapply Forall_impl; [exact (Hsp _ Hw3)|]. by intros c [? _]. }
  rewrite TrimFunc_bare; try done.
  2:{ apply Bare_ends; try done.
      - eapply Forall_impl; [exact Hl1|]. by intros c (_ & ? & _).
      - eapply Forall_impl; [exact Hu1|]. by intros c (_ & ?). }
  unfold strings.ToUpper. rewrite !map_app. fold (strings.ToUpper u).
  rewrite Hup. f_equal; [|f_equal].
  - apply ToUpper_fixed. eapply Forall_impl; [exact Hl1|]. by intros c (_ & _ & ?).
  - apply ToUpper_fixed. eapply Forall_impl; [exact (Hsp _ Hw2)|]. by intros c [_ ?].
Qed.

Lemma findUnit_valid lit n w2 unit :
  IntLiteral lit n → Forall (λ c, strings.isSpace c = true) w2 →
  unit ∈ units →
  findUnit (lit ++ w2 ++ unit) units = Some (lit, unit).
Proof.
  intros Hlit Hw2 Hin.
  destruct (IntLiteral_chars lit n Hlit) as (Hne & Hlc & d & Hd & Hdd).
  rewrite (assoc_L (++)).
  assert (unit `suffix_of` (lit ++ w2) ++ unit) as Hsuf by by apply suffix_app_r.
  destruct (findUnit _ units) as [[v u']|] eqn:E.
  2:{ exfalso. by apply (proj1 (findUnit_None _ _) E unit). }
  destruct (findUnit_Some _ _ _ _ E) as (Hin' & Hsuf' & ->).
  pose proof (findUnit_longest _ _ _ _ units_order E unit Hin Hsuf) as Hlen.
  assert (u' = unit) as ->.
  { destruct (suffix_weak_total _ _ _ Hsuf' Hsuf) as [H|[k ->]];
      [by apply suffix_length_eq|].
    destruct k as [|x k] using rev_ind; [done|]. clear IHk. exfalso.
    apply suffix_app_inv in Hsuf' as [m Hm].
    assert (last (lit ++ w2) = Some x) as Hlast
      by by rewrite Hm, (assoc_L (++)), last_snoc.
    pose proof units_upper as HU. rewrite Forall_forall in HU.
    specialize (HU _ Hin'). rewrite Forall_forall in HU.
    assert (isUpperLetter x = true) as Hx.
    { apply HU. rewrite !elem_of_app. left. right. by left. }
    rewrite last_app in Hlast. destruct (last w2) as [y|] eqn:Ey.
    - injection Hlast as ->. apply last_elem_of in Ey.
      rewrite Forall_forall in Hw2.
      destruct (proj1 (proj2 (char_classes x)) (Hw2 _ Ey)) as (_ & _ & ?).
      congruence.
    - rewrite Hd in Hlast. injection Hlast as ->.
      assert (isLiteralChar x = true) as Hl
        by (unfold isLiteralChar; by rewrite Hdd).
      destruct (proj1 (char_classes x) Hl) as (_ & _ & _ & ?). congruence. }
  rewrite TrimSuffix_app. do 2 f_equal.
  rewrite <- (app_nil_l (lit ++ w2)). apply TrimFunc_bare; try done.
  apply Bare_Forall. eapply Forall_impl; [exact Hlc|]. intros c Hc.
  by destruct (proj1 (char_classes c) Hc) as (_ & ? & _).
Qed.

Ltac eval_unitIn :=
  repeat match goal with
         | |- context [unitIn ?u ?l] =>
             let b := eval vm_compute in (unitIn u l) in
             change (unitIn u l) with b
         end.

Lemma unit_switch unit n :
  unit ∈ units → GoInt.in_range n →
  (if unitIn unit ["B"; "BYTE"; "BYTES"] then inl n
   else if unitIn unit ["KB"; "KILOBYTE"; "KILOBYTES"] then
     inl (GoInt.mul n 1024)
   else if unitIn unit ["MB"; "MEGABYTE"; "MEGABYTES"] then
     inl (GoInt.mul (GoInt.mul n 1024) 1024)
   else if unitIn unit ["GB"; "GIGABYTE"; "GIGABYTES"] then
     inl (GoInt.mul (GoInt.mul (GoInt.mul n 1024) 1024) 1024)
   else inr (UnsupportedUnit unit))
  = (inl (GoInt.wrap (n * multiplier unit)) : Z + ParseError).
Proof.
  intros Hin Hn. unfold units in Hin. unfold multiplier, GoInt.mul.
  repeat (apply elem_of_cons in Hin as [->|Hin]);
    [..|by apply elem_of_nil in Hin];
    eval_unitIn; cbn match;
    repeat first [rewrite wrap_mul_l | rewrite <- Z.mul_assoc]; f_equal;
    first [ by rewrite Z.mul_1_r, wrap_id | f_equal; lia ].
Qed.

Lemma parseSize_valid q1 w1 lit n w2 u unit w3 q2 :
  Forall (λ c, isQuote c = true) q1 → Forall (λ c, isQuote c = true) q2 →
  Forall (λ c, strings.isSpace c = true) w1 →
  Forall (λ c, strings.isSpace c = true) w2 →
  Forall (λ c, strings.isSpace c = true) w3 →
  IntLiteral lit n → GoInt.in_range n →
  unit ∈ units → strings.ToUpper u = unit →
  parseSize (q1 ++ w1 ++ lit ++ w2 ++ u ++ w3 ++ q2)
  = inl (GoInt.wrap (n * multiplier unit)).
Proof.
  intros Hq1 Hq2 Hw1 Hw2 Hw3 Hlit Hn Hin Hup. unfold parseSize.
  rewrite (normalize_valid q1 w1 lit n w2 u unit w3 q2) by done.
  rewrite (findUnit_valid lit n w2 unit) by done.
  rewrite (Atoi_literal lit n Hlit), bool_decide_eq_true_2 by done.
  by apply unit_switch.
Qed.

(** C2, as the code has it.  For a size string made of quotes, white space,
    a decimal integer that fits in 64 bits, optional white space, a unit in
    any letter case, white space and quotes, parseSize returns the integer
    times the unit's multiplier (1, 1024, 1024^2, 1024^3) reduced to a
    64-bit signed integer, which is the product itself whenever the product
    fits in 64 bits.  For an ASCII string with no recognised unit at the
    end of its normalised form parseSize fails with the invalid-format
    error; when a unit is recognised and the text before it is not a
    decimal integer, or is one beyond 64 bits, parseSize fails with the
    invalid-number error. *)
Theorem parseSize_spec :
  (∀ q1 w1 lit n w2 u unit w3 q2,
     Forall (λ c, isQuote c = true) q1 → Forall (λ c, isQuote c = true) q2 →
     Forall (λ c, strings.isSpace c = true) w1 →
     Forall (λ c, strings.isSpace c = true) w2 →
     Forall (λ c, strings.isSpace c = true) w3 →
     IntLiteral lit n → GoInt.in_range n →
     unit ∈ units → strings.ToUpper u = unit →
     parseSize (q1 ++ w1 ++ lit ++ w2 ++ u ++ w3 ++ q2)
     = inl (GoInt.wrap (n * multiplier unit))
     ∧ (GoInt.in_range (n * multiplier unit) →
        parseSize (q1 ++ w1 ++ lit ++ w2 ++ u ++ w3 ++ q2)
        = inl (n * multiplier unit)))
  ∧ (∀ s,
       isASCII s → (∀ u, u ∈ units → ¬ u `suffix_of` normalize s) →
       parseSize s = inr InvalidFormat)
  ∧ (∀ s value unit,
       isASCII s → findUnit (normalize s) units = Some (value, unit) →
       ((∀ n, ¬ IntLiteral value n) → ∃ e, parseSize s = inr (InvalidNumber e))
       ∧ (∀ n, IntLiteral value n → ¬ GoInt.in_range n →
            parseSize s = inr (InvalidNumber strconv.ErrRange))).
Proof.
  split; [|split].
  - intros q1 w1 lit n w2 u unit w3 q2 Hq1 Hq2 Hw1 Hw2 Hw3 Hlit Hn Hin Hup.
    pose proof (parseSize_valid q1 w1 lit n w2 u unit w3 q2
                  Hq1 Hq2 Hw1 Hw2 Hw3 Hlit Hn Hin Hup) as H.
    split; [done|]. intros Hr. by rewrite H, wrap_id.
  - intros s _ Hnone. apply parseSize_InvalidFormat. by apply findUnit_None.
  - intros s value unit _ Hfind. unfold parseSize. rewrite Hfind. split.
    + intros Hnot. destruct (strconv.Atoi value) as [n|e] eqn:E; [|by exists e].
      apply Atoi_inl in E as [Hlit _]. by destruct (Hnot n).
    + intros n Hlit Hout.
      by rewrite (Atoi_literal value n Hlit), bool_decide_eq_false_2.
Qed.

Lemma isASCII_check s : forallb (λ c, code c <? 128) s = true → isASCII s.
Proof.
  rewrite forallb_forall. intros H. apply Forall_forall. intros c Hc.
  apply list_elem_of_In, H in Hc. lia.
Qed.

Lemma parseSize_spec_witness :
  parseSize (str "' 12 kb '") = inl 12288
  ∧ parseSize (str "12 gigs") = inr InvalidFormat
  ∧ (∃ e, parseSize (str "1.5 GB") = inr (InvalidNumber e))
  ∧ parseSize (str "99999999999999999999B")
    = inr (InvalidNumber strconv.ErrRange).
Proof.
  destruct parseSize_spec as (Hvalid & Hformat & Hnumber).
  split; [|split; [|split]].
  - refine (proj2 (Hvalid (str "'") (str " ") (str "12") 12 (str " ") (str "kb")
                            (str "KB") (str " ") (str "'")
                            _ _ _ _ _ _ _ _ _) _);
      by repeat constructor.
  - apply Hformat; [apply isASCII_check; by vm_compute|].
    apply findUnit_None. by vm_compute.
  - destruct (Hnumber (str "1.5 GB") (str "1.5") (str "GB")) as [H _].
    + apply isASCII_check. by vm_compute.
    + by vm_compute.
    + apply H. intros n Hn. apply Atoi_literal in Hn.
      change (strconv.Atoi (str "1.5")) with
        (inr strconv.ErrSyntax : Z + strconv.NumError) in Hn.
      by case_bool_decide.
  - destruct (Hnumber (str "99999999999999999999B")
                      (str "99999999999999999999") (str "B")) as [_ H].
    + apply isASCII_check. by vm_compute.
    + by vm_compute.
    + apply (H 99999999999999999999).
      * exact (lit_unsigned (str "99999999999999999999") ltac:(done)
                 ltac:(by repeat constructor)).
      * unfold GoInt.in_range, GoInt.min_int, GoInt.max_int. lia.
Defined.

(** C2, as stated, fails when the product does not fit in 64 bits:
    17179869185 is an integer, GB is a unit with multiplier 1024^3, and
    parseSize returns 1073741824 (one GiB) for 17179869185GB, which is not
    17179869185 * 1024^3. *)
Lemma parseSize_wraps_on_overflow :
  IntLiteral (str "17179869185") 17179869185
  ∧ str "GB" ∈ units ∧ multiplier (str "GB") = 1024 ^ 3
  ∧ parseSize (str "17179869185GB") = inl 1073741824
  ∧ 17179869185 * 1024 ^ 3 ≠ 1073741824.
Proof.
  split; [|split; [|split; [|split]]].
  - exact (lit_unsigned (str "17179869185") ltac:(done)
             ltac:(by repeat constructor)).
  - unfold units. rewrite !elem_of_cons. by left.
  - by vm_compute.
  - by vm_compute.
  - lia.
Qed.

Example parseSize_samples :
  parseSize (str "1 GB") = inl 1073741824
  ∧ parseSize (str "1KB") = inl 1024
  ∧ parseSize (str "3 megabytes") = inl 3145728
  ∧ parseSize (str "-5 byte") = inl (-5)
  ∧ parseSize (str " '1 GB' ") = inr InvalidFormat
  ∧ parseSize (str "GB") = inr (InvalidNumber strconv.ErrSyntax).
Proof. by vm_compute. Qed.

(** * Further properties of the code *)

(** ** The buffer sizer and the worker count *)

(** X1: whatever the page size, also one whose 256-fold overflows, the
    buffer size is between 1 MiB and 16 MiB: the test against the 256 KiB
    minimum never decides the result. *)
Theorem getOptimalBufferSize_at_least_MiB pageSize :
  1048576 ≤ getOptimalBufferSize pageSize ≤ 16777216
  ∧ getOptimalBufferSize pageSize ≠ minBufferSize.
Proof.
  unfold getOptimalBufferSize, minBufferSize, maxBufferSize.
  repeat case_match; lia.
Qed.

(** X2: the buffer size never shrinks when the page size grows (as long as
    the 256-fold of both is a machine integer); it is 1 MiB up to pages of
    4096 bytes and 16 MiB from pages of 65536 bytes on. *)
Theorem getOptimalBufferSize_monotone p q :
  GoInt.in_range (p * 256) → GoInt.in_range (q * 256) → p ≤ q →
  getOptimalBufferSize p ≤ getOptimalBufferSize q
  ∧ (q ≤ 4096 → getOptimalBufferSize q = 1048576)
  ∧ (65536 ≤ p → getOptimalBufferSize p = 16777216).
Proof.
  intros Hp Hq Hle.
  unfold getOptimalBufferSize, GoInt.mul, minBufferSize, maxBufferSize.
  rewrite !wrap_id by done. repeat split; intros; repeat case_match; lia.
Qed.

Lemma getOptimalBufferSize_monotone_witness :
  getOptimalBufferSize 2048 ≤ getOptimalBufferSize 4096
  ∧ getOptimalBufferSize 4096 = 1048576.
Proof.
  destruct (getOptimalBufferSize_monotone 2048 4096) as (H1 & H2 & _);
    [unfold GoInt.in_range, GoInt.min_int, GoInt.max_int; lia..|].
  split; [exact H1|]. apply H2. lia.
Defined.

(** X3: the default worker count is at least 2 for every CPU count, also a
    non-positive one and the largest machine integer, and it is the CPU
    count plus one for every CPU count from 1 up that is not the largest
    machine integer. *)
Theorem getOptimalWorkerCount_at_least_two cpus :
  GoInt.in_range cpus →
  2 ≤ getOptimalWorkerCount cpus ≤ GoInt.max_int
  ∧ (1 ≤ cpus < GoInt.max_int → getOptimalWorkerCount cpus = cpus + 1)
  ∧ (cpus < 1 ∨ cpus = GoInt.max_int → getOptimalWorkerCount cpus = 2).
Proof.
  intros Hc. unfold getOptimalWorkerCount, GoInt.add.
  pose proof (wrap_in_range (cpus + 1)) as Hw.
  unfold GoInt.in_range, GoInt.min_int, GoInt.max_int in *.
  destruct (Z.eq_dec cpus (2 ^ 63 - 1)) as [->|Hne].
  - change (GoInt.wrap (2 ^ 63 - 1 + 1)) with (- 2 ^ 63) in *.
    repeat split; intros; repeat case_match; lia.
  - rewrite wrap_id in * by (unfold GoInt.in_range, GoInt.min_int,
                               GoInt.max_int; lia).
    repeat split; intros; repeat case_match; lia.
Qed.

Lemma getOptimalWorkerCount_at_least_two_witness :
  2 ≤ getOptimalWorkerCount 8 ≤ GoInt.max_int
  ∧ (1 ≤ 8 < GoInt.max_int → getOptimalWorkerCount 8 = 8 + 1)
  ∧ (8 < 1 ∨ 8 = GoInt.max_int → getOptimalWorkerCount 8 = 2).
Proof.
  apply (getOptimalWorkerCount_at_least_two 8).
  unfold GoInt.in_range, GoInt.min_int, GoInt.max_int. lia.
Defined.

(** ** humanReadableSize *)

Lemma pow1024_bound e bytes :
  0 ≤ e → 1024 ^ (e + 1) ≤ bytes → bytes ≤ GoInt.max_int → e ≤ 5.
Proof.
  intros He Hb Hmax. destruct (Z.le_gt_cases e 5) as [|Hgt]; [done|].
  exfalso. assert (1024 ^ 7 ≤ 1024 ^ (e + 1)) by (apply Z.pow_le_mono_r; lia).
  unfold GoInt.max_int in Hmax. change (1024 ^ 7) with (2 ^ 70) in *.
  assert (2 ^ 63 < 2 ^ 70) by (by vm_compute). lia.
Qed.

Lemma scaleLoop_spec bytes :
  1024 ≤ bytes ≤ GoInt.max_int →
  ∀ fuel exp,
    0 ≤ exp → 1024 ^ (exp + 1) ≤ bytes → 7 ≤ Z.of_nat fuel + exp →
    ∃ exp',
      exp ≤ exp' ≤ 5
      ∧ scaleLoop fuel (bytes / 1024 ^ (exp + 1)) (1024 ^ (exp + 1)) exp
        = Ret (1024 ^ (exp' + 1), exp')
      ∧ 1024 ^ (exp' + 1) ≤ bytes < 1024 ^ (exp' + 2).
Proof.
  intros Hb. induction fuel as [|fuel IH]; intros exp He Hd Hfuel.
  { pose proof (pow1024_bound exp bytes He Hd (proj2 Hb)). lia. }
  pose proof (pow1024_bound exp bytes He Hd (proj2 Hb)) as He5.
  assert (0 < 1024 ^ (exp + 1)) as Hpos by (apply Z.pow_pos_nonneg; lia).
  assert (1024 ^ (exp + 2) = 1024 ^ (exp + 1) * 1024) as Hsucc.
  { replace (exp + 2) with (Z.succ (exp + 1)) by lia.
    rewrite Z.pow_succ_r by lia. lia. }
  simpl. destruct (Z.leb_spec 1024 (bytes / 1024 ^ (exp + 1))) as [Hn|Hn].
  - assert (1024 ^ (exp + 2) ≤ bytes) as Hd'.
    { rewrite Hsucc.
      pose proof (Z.mul_div_le bytes (1024 ^ (exp + 1)) Hpos). nia. }
    rewrite Z.quot_div_nonneg by lia.
    rewrite Z.div_div by lia.
    assert (GoInt.mul (1024 ^ (exp + 1)) 1024 = 1024 ^ (exp + 1 + 1)) as ->.
    { unfold GoInt.mul. replace (exp + 1 + 1) with (exp + 2) by lia.
      rewrite <- Hsucc. apply wrap_id.
      unfold GoInt.in_range, GoInt.min_int, GoInt.max_int in *. lia. }
    assert (GoInt.add exp 1 = exp + 1) as ->.
    { apply wrap_id. unfold GoInt.in_range, GoInt.min_int, GoInt.max_int. lia. }
    rewrite <- Hsucc. replace (exp + 2) with (exp + 1 + 1) in * by lia.
    destruct (IH (exp + 1)) as (exp' & Hr & Hloop & Hbnd); try lia.
    exists exp'. split; [lia|]. split; [done|]. done.
  - exists exp. split; [lia|]. split; [done|]. split; [done|].
    rewrite Hsucc.
    pose proof (Z.mod_pos_bound bytes (1024 ^ (exp + 1)) Hpos).
    pose proof (Z.div_mod bytes (1024 ^ (exp + 1)) ltac:(lia)). nia.
Qed.

Lemma humanReadableSize_scaled fuel bytes :
  GoInt.in_range bytes → (7 ≤ fuel)%nat → 1024 ≤ bytes →
  ∃ exp letter,
    0 ≤ exp ≤ 5
    ∧ str "KMGTPE" !! Z.to_nat exp = Some letter
    ∧ humanReadableSize fuel bytes
      = Ret (Scaled bytes (1024 ^ (exp + 1)) letter)
    ∧ 1024 ^ (exp + 1) ≤ bytes < 1024 ^ (exp + 2).
Proof.
  intros Hb Hfuel Hsz. unfold humanReadableSize.
  assert ((bytes <? 1024) = false) as -> by lia.
  destruct (scaleLoop_spec bytes ltac:(destruct Hb; lia) fuel 0)
    as (exp & He & Hloop & Hbnd); try lia.
  change (1024 ^ (0 + 1)) with 1024 in Hloop.
  rewrite Z.quot_div_nonneg, Hloop by lia.
  assert ((exp <? 0) = false) as -> by lia.
  assert (∃ letter, str "KMGTPE" !! Z.to_nat exp = Some letter) as [letter Hl].
  { assert (exp = 0 ∨ exp = 1 ∨ exp = 2 ∨ exp = 3 ∨ exp = 4 ∨ exp = 5)
      as [->|[->|[->|[->|[->| ->]]]]] by lia; by eexists. }
  exists exp, letter. rewrite Hl. repeat split; try done; lia.
Qed.

(** X4: humanReadableSize returns for every size once its loop had seven
    rounds, and never indexes the unit letters out of range.  Below 1024,
    negative sizes included, it prints the plain byte count; from 1024 on it
    scales by the largest power of 1024 that does not exceed the size, at
    most 1024^6, and prints the unit letter of that power. *)
Theorem humanReadableSize_scale fuel bytes :
  GoInt.in_range bytes → (7 ≤ fuel)%nat →
  (bytes < 1024 →
   humanReadableSize fuel bytes = Ret (PlainBytes (fmt.d bytes ++ str " B")))
  ∧ (1024 ≤ bytes →
     ∃ exp letter,
       0 ≤ exp ≤ 5
       ∧ str "KMGTPE" !! Z.to_nat exp = Some letter
       ∧ humanReadableSize fuel bytes
         = Ret (Scaled bytes (1024 ^ (exp + 1)) letter)
       ∧ 1024 ^ (exp + 1) ≤ bytes < 1024 ^ (exp + 2)).
Proof.
  intros Hb Hfuel. split; intros Hsz.
  - unfold humanReadableSize.
    by assert ((bytes <? 1024) = true) as -> by lia.
  - by apply humanReadableSize_scaled.
Qed.

Lemma humanReadableSize_scale_witness :
  (1536 < 1024 →
   humanReadableSize 7 1536 = Ret (PlainBytes (fmt.d 1536 ++ str " B")))
  ∧ (1024 ≤ 1536 →
     ∃ exp letter,
       0 ≤ exp ≤ 5
       ∧ str "KMGTPE" !! Z.to_nat exp = Some letter
       ∧ humanReadableSize 7 1536 = Ret (Scaled 1536 (1024 ^ (exp + 1)) letter)
       ∧ 1024 ^ (exp + 1) ≤ 1536 < 1024 ^ (exp + 2)).
Proof.
  apply (humanReadableSize_scale 7 1536); [|lia].
  unfold GoInt.in_range, GoInt.min_int, GoInt.max_int. lia.
Defined.

(** X5: the buffer size that the usage text of main shows is always printed
    in MB: for every page size, humanReadableSize of the computed buffer
    size scales by 1024^2 and takes the letter M. *)
Theorem usage_buffer_size_in_MB fuel pageSize :
  (7 ≤ fuel)%nat →
  humanReadableSize fuel (getOptimalBufferSize pageSize)
  = Ret (Scaled (getOptimalBufferSize pageSize) (1024 ^ 2) "M"%char).
Proof.
  intros Hfuel.
  assert (1048576 ≤ getOptimalBufferSize pageSize ≤ 16777216) as Hb.
  { unfold getOptimalBufferSize, minBufferSize, maxBufferSize.
    repeat case_match; lia. }
  set (b := getOptimalBufferSize pageSize) in *.
  destruct (humanReadableSize_scaled fuel b)
    as (exp & letter & He & Hl & Hrun & Hbnd); [|done|lia|].
  { unfold GoInt.in_range, GoInt.min_int, GoInt.max_int. lia. }
  assert (exp = 1) as ->.
  { destruct (Z.le_gt_cases exp 0) as [|]; [|destruct (Z.le_gt_cases 2 exp)].
    - assert (exp = 0) as -> by lia. change (1024 ^ (0 + 2)) with 1048576 in Hbnd.
      lia.
    - assert (1024 ^ 3 ≤ 1024 ^ (exp + 1)) by (apply Z.pow_le_mono_r; lia).
      change (1024 ^ 3) with 1073741824 in *. lia.
    - lia. }
  injection Hl as <-. exact Hrun.
Qed.

Lemma usage_buffer_size_in_MB_witness :
  humanReadableSize 7 (getOptimalBufferSize 4096)
  = Ret (Scaled (getOptimalBufferSize 4096) (1024 ^ 2) "M"%char).
Proof. apply (usage_buffer_size_in_MB 7 4096). lia. Defined.

(** ** getVersion *)

Lemma trimLeftFunc_split f s :
  ∃ l, s = l ++ strings.trimLeftFunc f s
       ∧ Forall (λ c, f c = true) l
       ∧ ∀ c, head (strings.trimLeftFunc f s) = Some c → f c = false.
Proof.
  induction s as [|c s (l & Hs & Hl & Hh)]; simpl.
  { exists []. by repeat split. }
  destruct (f c) eqn:Hc.
  - exists (c :: l). simpl. rewrite <- Hs. repeat split; [by constructor|done].
  - exists []. repeat split; [done|]. simpl. by intros c' [= <-].
Qed.

Lemma TrimFunc_split f s :
  ∃ l r, s = l ++ strings.TrimFunc f s ++ r
         ∧ Forall (λ c, f c = true) l ∧ Forall (λ c, f c = true) r
         ∧ Bare f (strings.TrimFunc f s).
Proof.
  unfold strings.TrimFunc, strings.trimRightFunc.
  destruct (trimLeftFunc_split f s) as (l & Hs & Hl & Hh).
  set (t := strings.trimLeftFunc f s) in *.
  destruct (trimLeftFunc_split f (reverse t)) as (r & Ht & Hr & Hu).
  set (u := strings.trimLeftFunc f (reverse t)) in *.
  assert (t = reverse u ++ reverse r) as Ht'.
  { by rewrite <- reverse_app, <- Ht, reverse_involutive. }
  exists l, (reverse r). repeat split.
  - by rewrite <- Ht'.
  - done.
  - by apply Forall_reverse.
  - intros c Hc. apply Hh. rewrite Ht', head_app. by rewrite Hc.
  - intros c Hc. apply Hu. by rewrite <- last_reverse.
Qed.

(** X6: getVersion answers unknown when the VERSION file cannot be read;
    otherwise it returns the text of the file with nothing but white space
    removed from its two ends, and what it returns neither starts nor ends
    with white space, so that reading a file that holds the returned text
    returns it unchanged.  (ASCII text.) *)
Theorem getVersion_trimmed content :
  isASCII content →
  (∀ err, getVersion (inr err) = str "unknown")
  ∧ (∃ l r,
       content = l ++ getVersion (inl content) ++ r
       ∧ Forall (λ c, strings.isSpace c = true) l
       ∧ Forall (λ c, strings.isSpace c = true) r)
  ∧ Bare strings.isSpace (getVersion (inl content))
  ∧ getVersion (inl (getVersion (inl content))) = getVersion (inl content).
Proof.
  intros _. split; [done|]. simpl. unfold strings.TrimSpace.
  destruct (TrimFunc_split strings.isSpace content) as (l & r & Hs & Hl & Hr & Hb).
  split; [by exists l, r|]. split; [done|].
  pose proof (TrimFunc_bare strings.isSpace [] _ []
                (Forall_nil_2 _) (Forall_nil_2 _) Hb) as H.
  cbn [app] in H. by rewrite app_nil_r in H.
Qed.

Lemma getVersion_trimmed_witness :
  getVersion (inl (str "1.0.7.1" ++ [ascii_of_nat 10])) = str "1.0.7.1".
Proof.
  destruct (getVersion_trimmed (str "1.0.7.1" ++ [ascii_of_nat 10]))
    as (_ & _ & _ & H).
  - apply isASCII_check. by vm_compute.
  - rewrite <- H. by vm_compute.
Defined.

(** ** The progress monitor on arbitrary streams *)

Lemma list_pair_ind {A} (P : list A → Prop) :
  P [] → (∀ x, P [x]) → (∀ x y l, P l → P (x :: y :: l)) → ∀ l, P l.
Proof.
  intros H0 H1 H2 l. assert (P l ∧ ∀ x, P (x :: l)) as [H _]; [|done].
  induction l as [|y l [IH1 IH2]]; [by split|]. split; [done|].
  intros x. by apply H2.
Qed.

Lemma wrap_add_r a b : GoInt.wrap (a + GoInt.wrap b) = GoInt.wrap (a + b).
Proof. by rewrite Z.add_comm, wrap_add_l, Z.add_comm. Qed.

Lemma wrap_add3 a b c :
  GoInt.wrap (GoInt.wrap a + GoInt.wrap b + c) = GoInt.wrap (a + b + c).
Proof.
  replace (GoInt.wrap a + GoInt.wrap b + c)
    with (GoInt.wrap a + (GoInt.wrap b + c)) by lia.
  rewrite wrap_add_l.
  replace (a + (GoInt.wrap b + c)) with (GoInt.wrap b + (a + c)) by lia.
  rewrite wrap_add_l. f_equal. lia.
Qed.

Lemma sumZ_app l k : sumZ (l ++ k) = sumZ l + sumZ k.
Proof. induction l as [|x l IH]; simpl; lia. Qed.

Lemma sumZ_perm (l k : list Z) : l ≡ₚ k → sumZ l = sumZ k.
Proof. induction 1; simpl; lia. Qed.

Lemma monitor_events evs :
  ∀ s, StatsInRange s →
    monitor (eventStream evs) s
    = {| completed := GoInt.wrap (completed s + len evs);
         totalBytes := GoInt.wrap (totalBytes s + sumZ (map fst evs));
         totalTime := GoInt.wrap (totalTime s + sumZ (map snd evs)) |}.
Proof.
  induction evs as [|[size t] evs IH]; intros s Hs.
  { destruct s as [c b t], Hs as (H1 & H2 & H3). unfold len. simpl in *.
    rewrite !Z.add_0_r. by rewrite !wrap_id. }
  change (eventStream ((size, t) :: evs)) with (size :: t :: eventStream evs).
  cbn [monitor]. rewrite IH by apply account_in_range.
  unfold account, GoInt.add, len. cbn [completed totalBytes totalTime].
  rewrite !wrap_add_l. f_equal; f_equal; simpl; lia.
Qed.

(** X7: the totals of the progress monitor do not depend on the order in
    which completion events arrive: two streams of (size, time) events that
    are permutations of each other leave the same completed count, byte
    total and time total. *)
Theorem monitor_order_irrelevant evs1 evs2 s :
  StatsInRange s → evs1 ≡ₚ evs2 →
  monitor (eventStream evs1) s = monitor (eventStream evs2) s.
Proof.
  intros Hs Hp. rewrite !monitor_events by done. unfold len.
  rewrite (Permutation_length Hp).
  rewrite (sumZ_perm (map fst evs1) (map fst evs2)) by by apply fmap_Permutation.
  by rewrite (sumZ_perm (map snd evs1) (map snd evs2))
    by by apply fmap_Permutation.
Qed.

Lemma monitor_order_irrelevant_witness :
  monitor (eventStream [(1024, 5); (2048, 7); (512, 1)]) noStats
  = monitor (eventStream [(512, 1); (1024, 5); (2048, 7)]) noStats.
Proof.
  apply monitor_order_irrelevant; [apply noStats_in_range|].
  by rewrite (Permutation_cons_append [(1024, 5); (2048, 7)] (512, 1)).
Defined.

(** X8: on any sequence of values received before the channel is closed,
    paired or not, the monitor counts one completion for every two values
    and one more for a last value left alone (whose time is then the zero
    of the closed channel), and the byte total and the time total together
    add up to the sum of all the values received. *)
Theorem monitor_counts_pairs progress s :
  StatsInRange s →
  let s' := monitor progress s in
  StatsInRange s'
  ∧ completed s' = GoInt.wrap (completed s + (len progress + 1) `div` 2)
  ∧ GoInt.wrap (totalBytes s' + totalTime s')
    = GoInt.wrap (totalBytes s + totalTime s + sumZ progress).
Proof.
  revert s. induction progress as [|x|x y l IH] using list_pair_ind;
    intros s Hs.
  - destruct Hs as (H1 & H2 & H3). simpl. split; [done|].
    rewrite Z.add_0_r, wrap_id by done. split; [done|]. f_equal. lia.
  - simpl. split; [apply account_in_range|].
    unfold GoInt.add. split; [done|].
    rewrite wrap_add_l, wrap_add_r. f_equal. lia.
  - cbn [monitor]. destruct (IH _ (account_in_range x y s)) as (Hr & Hc & Ht).
    split; [done|]. rewrite Hc, Ht. cbn [account completed totalBytes totalTime].
    unfold GoInt.add, len. cbn [length sumZ foldr]. split.
    + rewrite wrap_add_l. f_equal.
      replace (Z.of_nat (S (S (length l))) + 1)
        with ((Z.of_nat (length l) + 1) + 1 * 2) by lia.
      rewrite Z.div_add by lia. lia.
    + rewrite wrap_add3. f_equal. fold (sumZ l). lia.
Qed.

Lemma monitor_counts_pairs_witness :
  let s' := monitor [1024; 5; 1024] noStats in
  StatsInRange s'
  ∧ completed s' = GoInt.wrap (completed noStats + (len [1024; 5; 1024] + 1) `div` 2)
  ∧ GoInt.wrap (totalBytes s' + totalTime s')
    = GoInt.wrap (totalBytes noStats + totalTime noStats + sumZ [1024; 5; 1024]).
Proof. apply (monitor_counts_pairs [1024; 5; 1024]), noStats_in_range. Defined.

(** ** The size parser: what it accepts and what it ignores *)

(** X9: whatever parseSize accepts is an integer and a unit.  When
    parseSize returns a number, the normalised input ends in one of the
    twelve units, the text before that unit with its white space trimmed is
    a decimal integer that fits in 64 bits, and the number returned is that
    integer times the unit's multiplier in 64-bit arithmetic, so it is
    itself a machine integer.  (ASCII input.) *)
Theorem parseSize_accepts_only_sizes sizeStr v :
  isASCII sizeStr → parseSize sizeStr = inl v →
  ∃ text unit n,
    normalize sizeStr = text ++ unit
    ∧ unit ∈ units
    ∧ IntLiteral (strings.TrimSpace text) n
    ∧ GoInt.in_range n
    ∧ v = GoInt.wrap (n * multiplier unit)
    ∧ GoInt.in_range v.
Proof.
  intros _. unfold parseSize.
  destruct (findUnit (normalize sizeStr) units) as [[value unit]|] eqn:E;
    [|done].
  destruct (findUnit_Some _ _ _ _ E) as (Hin & [text Htext] & ->).
  destruct (strconv.Atoi _) as [n|e] eqn:EA; [|done].
  apply Atoi_inl in EA as [Hlit Hn].
  rewrite (unit_switch unit n Hin Hn). intros [= <-].
  exists text, unit, n. rewrite Htext, TrimSuffix_app in *.
  do 5 (split; [done|]). apply wrap_in_range.
Qed.

Lemma parseSize_accepts_only_sizes_witness :
  ∃ text unit n,
    normalize (str "'12 kb'") = text ++ unit
    ∧ unit ∈ units
    ∧ IntLiteral (strings.TrimSpace text) n
    ∧ GoInt.in_range n
    ∧ 12288 = GoInt.wrap (n * multiplier unit)
    ∧ GoInt.in_range 12288.
Proof.
  apply (parseSize_accepts_only_sizes (str "'12 kb'") 12288).
  - apply isASCII_check. by vm_compute.
  - by vm_compute.
Defined.

(** X10: the default branch of the unit switch is dead: parseSize never
    fails with the unsupported-unit error, for any input. *)
Theorem parseSize_never_unsupported_unit sizeStr unit :
  parseSize sizeStr ≠ inr (UnsupportedUnit unit).
Proof.
  unfold parseSize.
  destruct (findUnit (normalize sizeStr) units) as [[value u]|] eqn:E;
    [|done].
  destruct (findUnit_Some _ _ _ _ E) as (Hin & _ & _).
  destruct (strconv.Atoi value) as [n|e] eqn:EA; [|done].
  apply Atoi_inl in EA as [_ Hn]. by rewrite (unit_switch u n Hin Hn).
Qed.

Lemma TrimFunc_strip f l s r :
  Forall (λ c, f c = true) l → Forall (λ c, f c = true) r →
  strings.TrimFunc f (l ++ s ++ r) = strings.TrimFunc f s.
Proof.
  intros Hl Hr.
  destruct (TrimFunc_split f s) as (l' & r' & Hs & Hl' & Hr' & Hb).
  rewrite Hs at 1.
  replace (l ++ (l' ++ strings.TrimFunc f s ++ r') ++ r)
    with ((l ++ l') ++ strings.TrimFunc f s ++ (r' ++ r))
    by (by rewrite <- !(assoc_L (++))).
  apply TrimFunc_bare; try done; by apply Forall_app.
Qed.

(** X11: quote characters around the size are ignored, however many and
    whether or not they match: the same string with single or double
    quotes put before and after it parses to the same result. *)
Theorem parseSize_ignores_quotes q1 sizeStr q2 :
  Forall (λ c, isQuote c = true) q1 → Forall (λ c, isQuote c = true) q2 →
  parseSize (q1 ++ sizeStr ++ q2) = parseSize sizeStr.
Proof.
  intros H1 H2. unfold parseSize, normalize, strings.Trim.
  fold isQuote. by rewrite TrimFunc_strip.
Qed.

Lemma parseSize_ignores_quotes_witness :
  parseSize (str "'" ++ str "1 GB" ++ [ascii_of_nat 34; ascii_of_nat 39])
  = parseSize (str "1 GB").
Proof. apply parseSize_ignores_quotes; by repeat constructor. Defined.

Lemma upper_classes c :
  isQuote (strings.upper c) = isQuote c
  ∧ strings.isSpace (strings.upper c) = strings.isSpace c
  ∧ strings.upper (strings.upper c) = strings.upper c.
Proof. by destruct c as [[] [] [] [] [] [] [] []]. Qed.

Lemma trimLeftFunc_map f g s :
  (∀ c, f (g c) = f c) →
  strings.trimLeftFunc f (map g s) = map g (strings.trimLeftFunc f s).
Proof.
  intros H. induction s as [|c s IH]; simpl; [done|].
  rewrite H. by destruct (f c).
Qed.

Lemma TrimFunc_map f g s :
  (∀ c, f (g c) = f c) →
  strings.TrimFunc f (map g s) = map g (strings.TrimFunc f s).
Proof.
  intros H. unfold strings.TrimFunc, strings.trimRightFunc.
  rewrite trimLeftFunc_map by done.
  change (map g) with (fmap (M:=list) g).
  rewrite <- fmap_reverse.
  change (fmap (M:=list) g) with (map g).
  rewrite trimLeftFunc_map by done.
  change (map g) with (fmap (M:=list) g). by rewrite fmap_reverse.
Qed.

Lemma normalize_upper s :
  normalize s
  = strings.TrimSpace (strings.Trim (strings.ToUpper s) quotes).
Proof.
  unfold normalize, strings.Trim, strings.TrimSpace, strings.ToUpper.
  rewrite !TrimFunc_map; [done|..]; intros c; apply upper_classes.
Qed.

(** X12: parseSize does not look at letter case: two strings that differ
    only in the case of their letters (that have the same upper-case form)
    parse to the same result, the same number or the same error.  (ASCII
    input.) *)
Theorem parseSize_case_insensitive s1 s2 :
  isASCII s1 → isASCII s2 →
  strings.ToUpper s1 = strings.ToUpper s2 → parseSize s1 = parseSize s2.
Proof.
  intros _ _ H. unfold parseSize. by rewrite (normalize_upper s1), H, <- normalize_upper.
Qed.

Lemma parseSize_case_insensitive_witness :
  parseSize (str "3 MegaBytes") = parseSize (str "3 MEGABYTES").
Proof.
  apply parseSize_case_insensitive;
    [apply isASCII_check; by vm_compute..|by vm_compute].
Defined.

(** ** The disk: what a call leaves behind *)

Lemma OnlyAt_refl path w : OnlyAt path w w.
Proof. by intros q _. Qed.

Lemma OnlyAt_trans path w1 w2 w3 :
  OnlyAt path w1 w2 → OnlyAt path w2 w3 → OnlyAt path w1 w3.
Proof. intros H1 H2 q Hq. by rewrite H2, H1. Qed.

Lemma OnlyAt_files path w w' : files w' = files w → OnlyAt path w w'.
Proof. intros H q _. by rewrite H. Qed.

Section DiskFacts.

Context (env : Env).

Lemma sysCall_any w r w' :
  sysCall env w = (r, w') →
  files w' = files w ∧ drawn w' = drawn w.
Proof. unfold sysCall. by intros [= _ <-]. Qed.

Lemma fileWrite_any path p w r w' :
  fileWrite env path p w = (r, w') →
  drawn w' = drawn w
  ∧ ((r ≠ None ∧ files w' = files w)
     ∨ (r = None ∧ files w' = <[path := onDisk path w ++ p]> (files w))).
Proof.
  unfold fileWrite, onDisk.
  destruct (sysCall env w) as [[e|] w1] eqn:Hs;
    apply sysCall_any in Hs as [Hf Hd]; intros [= <- <-]; simpl;
    rewrite ?Hf; split; auto.
Qed.

Lemma fileWrite_OnlyAt path p w r w' :
  fileWrite env path p w = (r, w') → OnlyAt path w w'.
Proof.
  intros H. apply fileWrite_any in H as [_ [[_ H]|[_ H]]].
  - by apply OnlyAt_files.
  - intros q Hq. by rewrite H, lookup_insert_ne.
Qed.

Lemma fileWrite_fails path p w e w' :
  fileWrite env path p w = (Some e, w') → files w' = files w.
Proof. intros H. by apply fileWrite_any in H as [_ [[_ H]|[? _]]]. Qed.

Lemma bufFlush_any b w r b' w' :
  bufFlush env b w = (r, b', w') →
  OnlyAt (wrPath b) w w' ∧ wrPath b' = wrPath b.
Proof.
  unfold bufFlush. destruct (wrBuf b) as [|x l].
  { intros [= _ <- <-]. split; [apply OnlyAt_refl|done]. }
  destruct (fileWrite env _ _ w) as [[e|] w1] eqn:Hw;
    apply fileWrite_OnlyAt in Hw; by intros [= _ <- <-].
Qed.

Lemma bufWrite_any b p w r b' w' :
  bufWrite env b p w = (r, b', w') →
  OnlyAt (wrPath b) w w' ∧ wrPath b' = wrPath b.
Proof.
  unfold bufWrite. case_match.
  { intros [= _ <- <-]. split; [apply OnlyAt_refl|done]. }
  destruct (wrBuf b) as [|x l].
  { destruct (fileWrite env _ _ w) as [[e|] w1] eqn:Hw;
      apply fileWrite_OnlyAt in Hw; by intros [= _ <- <-]. }
  set (full := Build_Writer _ _ _).
  destruct (bufFlush env full w) as [[[e|] b1] w1] eqn:Hfl;
    apply bufFlush_any in Hfl as [H1 Hp1]; simpl in H1, Hp1.
  { by intros [= _ <- <-]. }
  case_match.
  { by intros [= _ <- <-]. }
  destruct (fileWrite env _ _ w1) as [[e|] w2] eqn:Hw;
    apply fileWrite_OnlyAt in Hw; rewrite Hp1 in Hw;
    intros [= _ <- <-]; (split; [by eapply OnlyAt_trans|done]).
Qed.

Lemma randRead_any n w r w' :
  randRead env n w = (r, w') → files w' = files w.
Proof.
  unfold randRead. destruct (sysCall env w) as [[e|] w1] eqn:Hs;
    apply sysCall_any in Hs as [Hf Hd]; by intros [= _ <-].
Qed.

Lemma chunkLoop_OnlyAt fuel :
  ∀ path bs rem buffer b w out b' w',
    wrPath b = path →
    chunkLoop env fuel path bs rem buffer b w = (out, b', w') →
    OnlyAt path w w' ∧ wrPath b' = path.
Proof.
  induction fuel as [|fuel IH]; intros path bs rem buffer b w out b' w' Hp;
    simpl.
  { intros [= _ <- <-]. split; [apply OnlyAt_refl|done]. }
  case_match; [|intros [= _ <- <-]; split; [apply OnlyAt_refl|done]].
  destruct (randRead env _ w) as [[bytes|os] w1] eqn:Hr;
    apply randRead_any in Hr.
  2:{ intros [= _ <- <-]. split; [by apply OnlyAt_files|done]. }
  match goal with
  | |- context [bufWrite env b ?p ?w] =>
      destruct (bufWrite env b p w) as [[[os|] b2] w2] eqn:Hw
  end; apply bufWrite_any in Hw as [Hw Hp2]; rewrite Hp in Hw, Hp2.
  - intros [= _ <- <-]. split; [|done].
    eapply OnlyAt_trans; [|exact Hw]. by apply OnlyAt_files.
  - intros Hloop. apply IH in Hloop as [Hloop Hp']; [|done]. split; [|done].
    eapply OnlyAt_trans; [|exact Hloop].
    eapply OnlyAt_trans; [|exact Hw]. by apply OnlyAt_files.
Qed.

End DiskFacts.

Lemma createRandomFile_frame env fuel path fileSize bufferSize w out w' :
  createRandomFile env fuel path fileSize bufferSize w = (out, w') →
  OnlyAt path w w'.
Proof.
  intros Hrun q Hq. revert Hrun.
  unfold createRandomFile, MkdirAll, Create.
  destruct (sysCall env _) as [[e|] w1] eqn:H1;
    apply sysCall_any in H1 as [Hf1 _]; simpl in Hf1.
  { intros [= _ <-]. by rewrite Hf1. }
  destruct (sysCall env w1) as [[e|] w2] eqn:H2;
    apply sysCall_any in H2 as [Hf2 _].
  { intros [= _ <-]. by rewrite Hf2, Hf1. }
  assert (OnlyAt path w (setFiles (<[path:=[]]> (files w2)) w2)) as H3.
  { intros q' Hq'. simpl. by rewrite lookup_insert_ne, Hf2, Hf1. }
  case_match; [intros [= _ <-]; by apply H3|].
  destruct (chunkLoop env _ _ _ _ _ _ _) as [[o b4] w4] eqn:Hloop.
  apply chunkLoop_OnlyAt in Hloop as [Hloop Hp4]; [|done].
  pose proof (OnlyAt_trans _ _ _ _ H3 Hloop) as H4.
  destruct o as [[e|]| |]; try (intros [= _ <-]; by apply H4).
  destruct (bufFlush env b4 w4) as [[r b5] w5] eqn:Hfl.
  apply bufFlush_any in Hfl as [H5 _].
  destruct r; intros [= _ <-]; rewrite H5 by congruence; by apply H4.
Qed.

(** X13: createRandomFile changes no file but its own: however the call
    ends, with or without an error, panic included, every other path holds
    afterwards what it held before. *)
Theorem createRandomFile_touches_only_its_file env fuel path fileSize bufferSize
    w out w' q :
  createRandomFile env fuel path fileSize bufferSize w = (out, w') →
  q ≠ path → files w' !! q = files w !! q.
Proof.
  intros Hrun Hq. by apply (createRandomFile_frame _ _ _ _ _ _ _ _ Hrun).
Qed.

Lemma createRandomFile_touches_only_its_file_witness :
  let w := setFiles {[ str "other" := [Byte.x01] ]} emptyWorld in
  let run := createRandomFile calmEnv 6 (str ".out/file_1.bin") 5 2 w in
  files run.2 !! str "other" = files w !! str "other".
Proof.
  intros w run.
  apply (createRandomFile_touches_only_its_file calmEnv 6
           (str ".out/file_1.bin") 5 2 w run.1 run.2 (str "other")).
  - by vm_compute.
  - done.
Defined.

Lemma Short_extend path w data more :
  Short path w data → Short path w (data ++ more).
Proof.
  intros (content & rest & Hf & Hr & <-). exists content, (rest ++ more).
  split; [done|]. split; [by destruct rest|]. by rewrite (assoc_L (++)).
Qed.

Lemma Stored_lookup b w data :
  Stored b w data →
  ∃ content, files w !! wrPath b = Some content ∧ content ++ wrBuf b = data.
Proof.
  unfold Stored, onDisk. intros [[content Hc] Hd]. rewrite Hc in Hd. eauto.
Qed.

Section ErrorFacts.

Context (env : Env).

Lemma bufFlush_err b w e b' w' data :
  Stored b w data →
  bufFlush env b w = (Some e, b', w') → Short (wrPath b) w' data.
Proof.
  intros HS. apply Stored_lookup in HS as (content & Hc & Hd).
  unfold bufFlush. destruct (wrBuf b) as [|x l] eqn:Hbuf; [done|].
  destruct (fileWrite env _ _ w) as [[e'|] w1] eqn:Hw; [|done].
  apply fileWrite_fails in Hw. intros [= _ _ <-].
  exists content, (x :: l). by rewrite Hw.
Qed.

Lemma bufWrite_err b p w e b' w' data :
  Stored b w data → p ≠ [] →
  bufWrite env b p w = (Some e, b', w') → Short (wrPath b) w' (data ++ p).
Proof.
  intros HS Hp. unfold bufWrite. case_match eqn:Hfit; [done|].
  destruct (wrBuf b) as [|x l] eqn:Hbuf.
  { apply Stored_lookup in HS as (content & Hc & Hd).
    rewrite Hbuf, app_nil_r in Hd. subst data.
    destruct (fileWrite env _ _ w) as [[e'|] w1] eqn:Hw; [|done].
    apply fileWrite_fails in Hw. intros [= _ _ <-].
    exists content, p. by rewrite Hw. }
  set (n := Z.to_nat _). set (full := Build_Writer _ _ _).
  assert (Stored full w (data ++ take n p)) as HSfull.
  { destruct HS as [Hsome <-]. split; [done|]. rewrite Hbuf.
    exact (List.app_assoc _ (x :: l) _). }
  assert (drop n p ≠ []) as Hrest.
  { intros Hd. apply (f_equal length) in Hd. rewrite length_drop in Hd.
    subst n. unfold len in Hfit, Hd. apply Z.leb_gt in Hfit.
    clear full HSfull. destruct p; [done|]. simpl length in *. lia. }
  destruct (bufFlush env full w) as [[[e'|] b1] w1] eqn:Hfl.
  { intros [= _ _ <-]. apply (bufFlush_err _ _ _ _ _ _ HSfull) in Hfl.
    rewrite <- (take_drop n p) at 1. rewrite (assoc_L (++)).
    by apply Short_extend. }
  apply (bufFlush_ok _ _ _ _ _ _ HSfull) in Hfl as (HS1 & Hb1 & Hp1 & _).
  case_match; [done|].
  destruct (fileWrite env _ _ w1) as [[e'|] w2] eqn:Hw; [|done].
  apply fileWrite_fails in Hw. intros [= _ _ <-].
  apply Stored_lookup in HS1 as (content & Hc & Hd).
  rewrite Hb1, app_nil_r in Hd. rewrite Hp1 in Hc. simpl in Hc.
  exists content, (drop n p). rewrite Hw. split; [done|]. split; [done|].
  by rewrite Hd, <- (assoc_L (++)), take_drop.
Qed.

Lemma chunkLoop_err fuel :
  ∀ path bs rem buffer b w e b' w' data,
    0 < bs → 0 ≤ rem ≤ GoInt.max_int → Stored b w data → wrPath b = path →
    chunkLoop env fuel path bs rem buffer b w = (Ret (Some e), b', w') →
    (errKind e = RandomSourceError ∨ errKind e = WriteError)
    ∧ Short path w' (data ++ map (entropy env) (seq (drawn w) (Z.to_nat rem))).
Proof.
  induction fuel as [|fuel IH]; intros path bs rem buffer b w e b' w' data
    Hbs Hrem HS Hpath; simpl; [done|].
  case_match; [|done].
  rewrite chunkSize_min. set (c := Z.min bs rem).
  assert (0 < c ≤ rem) as Hc by (subst c; lia).
  assert (Z.to_nat rem = (Z.to_nat c + Z.to_nat (rem - c))%nat) as Hsplit by lia.
  destruct (randRead env c w) as [[bytes|os] w1] eqn:Hrd.
  2:{ apply randRead_any in Hrd. intros [= <- _ <-]. split; [by left|].
      apply Stored_lookup in HS as (content & Hcn & Hd). rewrite Hpath in Hcn.
      exists content, (wrBuf b ++ map (entropy env) (seq (drawn w) (Z.to_nat rem))).
      rewrite Hrd. split; [done|]. split; [|by rewrite (assoc_L (++)), Hd].
      rewrite Hsplit. destruct (Z.to_nat c) eqn:Ec; [lia|]. by destruct (wrBuf b). }
  apply randRead_ok in Hrd as (-> & Hf1 & Ht1 & Hd1).
  rewrite take_app_length' by (by rewrite length_map, length_seq).
  assert (Stored b (record (EvChunk path c) w1) data) as HS1.
  { destruct HS as [Hsome Hdata]. unfold Stored, onDisk in *. simpl.
    by rewrite Hf1. }
  set (p := map (entropy env) (seq (drawn w) (Z.to_nat c))).
  assert (p ≠ []) as Hp.
  { subst p. destruct (Z.to_nat c) eqn:Ec; [lia|done]. }
  assert (data ++ map (entropy env) (seq (drawn w) (Z.to_nat rem))
          = (data ++ p)
            ++ map (entropy env)
                 (seq (drawn w + Z.to_nat c) (Z.to_nat (rem - c)))) as Hall.
  { subst p. by rewrite Hsplit, seq_app, map_app, (assoc_L (++)). }
  destruct (bufWrite env b p _) as [[[os|] b2] w2] eqn:Hwr.
  { intros [= <- _ <-]. split; [by right|].
    apply (bufWrite_err _ _ _ _ _ _ _ HS1 Hp) in Hwr.
    rewrite Hall, <- Hpath. by apply Short_extend. }
  apply (bufWrite_ok _ _ _ _ _ _ _ HS1) in Hwr as (HS2 & Hp2 & Hs2 & Ht2 & Hd2).
  assert (GoInt.sub rem c = rem - c) as ->.
  { apply wrap_id. unfold GoInt.in_range, GoInt.min_int, GoInt.max_int in *. lia. }
  intros Hloop.
  assert (0 ≤ rem - c ≤ GoInt.max_int) as Hrem' by lia.
  assert (wrPath b2 = path) as Hpath2 by congruence.
  apply (IH _ _ _ _ _ _ _ _ _ (data ++ p) Hbs Hrem' HS2 Hpath2) in Hloop
    as [Hk Hloop].
  split; [done|]. rewrite Hall. rewrite Hd2 in Hloop. simpl in Hloop.
  by rewrite Hd1 in Hloop.
Qed.

End ErrorFacts.

(** X14: an error return of createRandomFile never leaves a complete file.
    When the directory or the file could not be created, the disk is as it
    was.  After any other error (random source, write, flush) the file
    exists and holds a proper prefix of the random bytes drawn for it, so it
    is shorter than fileSize: a full-length file means a nil return. *)
Theorem createRandomFile_error_truncates env fuel path fileSize bufferSize w e w' :
  0 ≤ fileSize ≤ GoInt.max_int → 0 < bufferSize →
  createRandomFile env fuel path fileSize bufferSize w = (Ret (Some e), w') →
  match errKind e with
  | DirectoryCreateError | FileCreateError => files w' = files w
  | _ =>
    ∃ content,
      files w' !! path = Some content
      ∧ content `prefix_of` fileBytes env w fileSize
      ∧ len content < fileSize
  end.
Proof.
  intros Hfs Hbs. unfold createRandomFile, MkdirAll, Create.
  destruct (sysCall env _) as [[os|] w1] eqn:H1;
    apply sysCall_any in H1 as [Hf1 Hd1]; simpl in Hf1, Hd1.
  { by intros [= <- <-]. }
  destruct (sysCall env w1) as [[os|] w2] eqn:H2;
    apply sysCall_any in H2 as [Hf2 Hd2].
  { intros [= <- <-]. simpl. by rewrite Hf2. }
  assert ((bufferSize <? 0) = false) as -> by lia.
  set (w3 := setFiles _ w2). set (bw := NewWriterSize path bufferSize).
  assert (∀ x, Short path x (fileBytes env w fileSize) →
            ∃ content, files x !! path = Some content
              ∧ content `prefix_of` fileBytes env w fileSize
              ∧ len content < fileSize) as Hshort.
  { intros x (content & rest & Hc & Hr & Hall). exists content.
    split; [done|]. split; [by exists rest|].
    apply (f_equal length) in Hall. unfold fileBytes in Hall.
    rewrite length_app, length_map, length_seq in Hall.
    unfold len. destruct rest; [done|]. simpl in Hall. lia. }
  destruct (chunkLoop env _ _ _ _ _ _ _) as [[o b4] w4] eqn:Hloop.
  destruct o as [[e4|]| |]; try done.
  - intros [= <- <-].
    apply (chunkLoop_err _ _ _ _ _ _ _ _ _ _ _ [] Hbs Hfs (Stored_created _ _ _))
      in Hloop as [Hk Hloop]; [|done].
    simpl in Hloop. rewrite Hd2, Hd1 in Hloop.
    apply Hshort in Hloop. by destruct Hk as [-> | ->].
  - apply (chunkLoop_ok _ _ _ _ _ _ _ _ _ _ [] Hbs Hfs (Stored_created _ _ _))
      in Hloop as (cs & Hcs & Htr & HS4 & Hp4).
    destruct (bufFlush env b4 w4) as [[[os|] b5] w5] eqn:Hfl; [|done].
    intros [= <- <-]. apply (bufFlush_err _ _ _ _ _ _ _ HS4) in Hfl.
    rewrite Hp4 in Hfl. simpl in Hfl. apply Hshort.
    unfold fileBytes. by rewrite <- Hd1, <- Hd2.
Qed.

Lemma createRandomFile_error_truncates_witness :
  let run :=
    createRandomFile entropyFailureEnv 6 (str ".out/file_1.bin") 5 2 emptyWorld in
  ∃ content,
    files run.2 !! str ".out/file_1.bin" = Some content
    ∧ content `prefix_of` fileBytes entropyFailureEnv emptyWorld 5
    ∧ len content < 5.
Proof.
  intros run.
  apply (createRandomFile_error_truncates entropyFailureEnv 6
           (str ".out/file_1.bin") 5 2 emptyWorld
           (Errorf RandomSourceError
              [str "error generating random data: "; str "unexpected EOF"])
           run.2).
  - unfold GoInt.max_int. lia.
  - lia.
  - by vm_compute.
Defined.

(** ** A worker's jobs on the disk *)

Section RunFacts.

Context (env : Env).

Lemma worker_frame fuel id fileSize bufferSize :
  ∀ jobs w out w',
    worker env fuel id jobs fileSize bufferSize w = (out, w') →
    ∀ q, q ∉ jobs → files w' !! q = files w !! q.
Proof.
  induction jobs as [|path jobs IH]; intros w out w'; simpl.
  { by intros [= _ <-]. }
  destruct (createRandomFile env fuel path fileSize bufferSize w)
    as [[r| |] w1] eqn:Hrun; apply createRandomFile_frame in Hrun.
  - intros Hw q Hq. apply not_elem_of_cons in Hq as [Hq1 Hq2].
    rewrite (IH _ _ _ Hw q Hq2). destruct r; simpl; by apply Hrun.
  - intros [= _ <-] q Hq. apply Hrun. by apply not_elem_of_cons in Hq as [? _].
  - intros [= _ <-] q Hq. apply Hrun. by apply not_elem_of_cons in Hq as [? _].
Qed.

Lemma chunkLoop_drawn fuel :
  ∀ path bs rem buffer b w b' w' data,
    0 < bs → 0 ≤ rem ≤ GoInt.max_int → Stored b w data →
    chunkLoop env fuel path bs rem buffer b w = (Ret None, b', w') →
    drawn w' = (drawn w + Z.to_nat rem)%nat.
Proof.
  induction fuel as [|fuel IH]; intros path bs rem buffer b w b' w' data
    Hbs Hrem HS; simpl; [done|].
  case_match.
  2:{ intros [= <- <-]. assert (rem = 0) as -> by lia. simpl. lia. }
  rewrite chunkSize_min. set (c := Z.min bs rem).
  assert (0 < c ≤ rem) as Hc by (subst c; lia).
  destruct (randRead env c w) as [[bytes|e] w1] eqn:Hrd; [|done].
  apply randRead_ok in Hrd as (-> & Hf1 & Ht1 & Hd1).
  rewrite take_app_length' by (by rewrite length_map, length_seq).
  assert (Stored b (record (EvChunk path c) w1) data) as HS1.
  { destruct HS as [Hsome Hdata]. unfold Stored, onDisk in *. simpl.
    by rewrite Hf1. }
  destruct (bufWrite env b _ _) as [[[e|] b2] w2] eqn:Hwr; [done|].
  apply (bufWrite_ok _ _ _ _ _ _ _ HS1) in Hwr as (HS2 & Hp2 & Hs2 & Ht2 & Hd2).
  assert (GoInt.sub rem c = rem - c) as ->.
  { apply wrap_id. unfold GoInt.in_range, GoInt.min_int, GoInt.max_int in *. lia. }
  intros Hloop.
  assert (0 ≤ rem - c ≤ GoInt.max_int) as Hrem' by lia.
  apply (IH _ _ _ _ _ _ _ _ _ Hbs Hrem' HS2) in Hloop.
  rewrite Hloop, Hd2. simpl. rewrite Hd1. lia.
Qed.

(** What a nil return leaves: the file holds the next [fileSize] bytes of
    the random source, and that many bytes have been drawn. *)
Lemma createRandomFile_done fuel path fileSize bufferSize w w' :
  0 ≤ fileSize ≤ GoInt.max_int → 0 < bufferSize →
  createRandomFile env fuel path fileSize bufferSize w = (Ret None, w') →
  files w' !! path = Some (fileBytes env w fileSize)
  ∧ drawn w' = (drawn w + Z.to_nat fileSize)%nat.
Proof.
  intros Hfs Hbs. unfold createRandomFile, MkdirAll, Create.
  destruct (sysCall env _) as [[os|] w1] eqn:H1; [done|].
  apply sysCall_ok in H1 as (Hf1 & _ & Hd1). simpl in Hf1, Hd1.
  destruct (sysCall env w1) as [[os|] w2] eqn:H2; [done|].
  apply sysCall_ok in H2 as (Hf2 & _ & Hd2).
  assert ((bufferSize <? 0) = false) as -> by lia.
  destruct (chunkLoop env _ _ _ _ _ _ _) as [[o b4] w4] eqn:Hloop.
  destruct o as [[e4|]| |]; try done.
  pose proof (chunkLoop_drawn _ _ _ _ _ _ _ _ _ [] Hbs Hfs
                (Stored_created _ _ _) Hloop) as Hdr.
  apply (chunkLoop_ok _ _ _ _ _ _ _ _ _ _ [] Hbs Hfs (Stored_created _ _ _))
    in Hloop as (cs & Hcs & Htr & HS4 & Hp4).
  destruct (bufFlush env b4 w4) as [[[os|] b5] w5] eqn:Hfl; [done|].
  apply (bufFlush_ok _ _ _ _ _ _ HS4) in Hfl as (HS5 & Hb5 & Hp5 & _ & _ & Hd5).
  intros [= <-]. split.
  - apply Stored_flushed in HS5; [|done]. rewrite Hp5, Hp4 in HS5.
    simpl in HS5. unfold fileBytes. by rewrite <- Hd1, <- Hd2.
  - rewrite Hd5, Hdr. simpl. by rewrite Hd2, Hd1.
Qed.

(** With no failing system call a worker leaves, for the [k]-th of its
    (distinct) jobs, a file holding the [k]-th block of [fileSize] bytes of
    the random source. *)
Lemma worker_faultless_run fuel id fileSize bufferSize :
  faultless env → 0 ≤ fileSize ≤ GoInt.max_int → 0 < bufferSize →
  (Z.to_nat fileSize < fuel)%nat →
  ∀ jobs w, NoDup jobs →
    ∃ w', worker env fuel id jobs fileSize bufferSize w = (Ret (), w')
      ∧ ∀ (k : nat) p, jobs !! k = Some p →
          files w' !! p =
            Some (map (entropy env)
                    (seq (drawn w + k * Z.to_nat fileSize) (Z.to_nat fileSize))).
Proof.
  intros Hnf Hfs Hbs Hfuel. induction jobs as [|path jobs IH]; intros w Hnd.
  { exists w. split; [done|]. by intros k p Hk. }
  apply NoDup_cons in Hnd as [Hnew Hnd]. simpl.
  destruct (createRandomFile_returns env fuel path fileSize bufferSize w
              Hfs Hbs Hfuel) as (r & w1 & Hrun & Hr & _).
  rewrite Hrun. pose proof (Hr Hnf) as ->.
  apply createRandomFile_done in Hrun as [Hfile Hdr]; [|done..].
  match goal with
  | |- context [worker env fuel id jobs fileSize bufferSize ?w5] =>
      destruct (IH w5 Hnd) as (w' & Hw & Hall);
      pose proof (worker_frame _ _ _ _ _ _ _ _ Hw path Hnew) as Hkeep
  end.
  exists w'. split; [done|]. intros [|k] p Hk; simpl in Hk.
  - injection Hk as <-. rewrite Hkeep. simpl. rewrite Hfile. unfold fileBytes.
    do 3 f_equal. lia.
  - rewrite (Hall k p Hk). simpl. rewrite Hdr. do 3 f_equal. lia.
Qed.

Lemma chunkLoop_zero_buffer fuel :
  ∀ path rem buffer b w,
    faultless env → 0 < rem ≤ GoInt.max_int → 0 ≤ wrSize b - len (wrBuf b) →
    (chunkLoop env fuel path 0 rem buffer b w).1.1 = OutOfFuel
    ∧ files (chunkLoop env fuel path 0 rem buffer b w).2 = files w
    ∧ drawn (chunkLoop env fuel path 0 rem buffer b w).2 = drawn w.
Proof.
  induction fuel as [|fuel IH]; intros path rem buffer b w Hnf Hrem Hb;
    simpl; [done|].
  assert ((0 <? rem) = true) as -> by lia.
  assert ((rem <? 0) = false) as -> by lia.
  unfold randRead. pose proof (sysCall_faultless env w Hnf) as Hs.
  destruct (sysCall env w) as [[e|] w1] eqn:Hcall; [done|].
  apply sysCall_ok in Hcall as (Hf1 & _ & Hd1).
  change (Z.to_nat 0) with 0%nat. simpl seq. simpl map. rewrite take_0.
  unfold bufWrite.
  assert ((len (@nil Byte.byte) <=? wrSize b - len (wrBuf b)) = true) as ->
    by (apply Z.leb_le; unfold len in *; simpl; lia).
  assert (GoInt.sub rem 0 = rem) as ->.
  { unfold GoInt.sub. rewrite Z.sub_0_r. apply wrap_id.
    unfold GoInt.in_range, GoInt.min_int, GoInt.max_int in *. lia. }
  match goal with
  | |- context [chunkLoop env fuel path 0 rem ?buf ?b2 ?w2] =>
      destruct (IH path rem buf b2 w2 Hnf Hrem) as (H1 & H2 & H3);
        [simpl; by rewrite app_nil_r|]
  end.
  rewrite H1, H2, H3. simpl. rewrite Hf1, Hd1. repeat split; try done; lia.
Qed.

End RunFacts.

(** X15: a worker changes no file outside its jobs: however its run ends,
    every path that is not among the jobs it received holds afterwards what
    it held before. *)
Theorem worker_touches_only_its_jobs env fuel id jobs fileSize bufferSize
    w out w' q :
  worker env fuel id jobs fileSize bufferSize w = (out, w') →
  q ∉ jobs → files w' !! q = files w !! q.
Proof. intros Hw Hq. by apply (worker_frame _ _ _ _ _ _ _ _ _ Hw). Qed.

Lemma worker_touches_only_its_jobs_witness :
  let w := setFiles {[ str "other" := [Byte.x01] ]} emptyWorld in
  let jobs := [str ".out/file_1.bin"; str ".out/file_2.bin"] in
  let run := worker entropyFailureEnv 6 0 jobs 5 2 w in
  files run.2 !! str "other" = files w !! str "other".
Proof.
  intros w jobs run.
  apply (worker_touches_only_its_jobs entropyFailureEnv 6 0 jobs 5 2 w
           run.1 run.2 (str "other")).
  - by vm_compute.
  - subst jobs. rewrite !not_elem_of_cons. repeat split; try done.
    apply not_elem_of_nil.
Defined.

(** X16: with no failing system call, a worker that is given distinct paths
    returns with every one of them on disk, each file holding its own block
    of fileSize bytes of the random source: the k-th job's file is bytes
    k * fileSize .. (k + 1) * fileSize - 1 drawn after the start, so no
    random byte goes into two files and each file has exactly fileSize
    bytes. *)
Theorem worker_faultless_files env fuel id jobs fileSize bufferSize w :
  faultless env → 0 < fileSize ≤ GoInt.max_int → 0 < bufferSize →
  (Z.to_nat fileSize < fuel)%nat → NoDup jobs →
  ∃ w', worker env fuel id jobs fileSize bufferSize w = (Ret (), w')
    ∧ ∀ (k : nat) p, jobs !! k = Some p →
        ∃ content,
          files w' !! p = Some content
          ∧ len content = fileSize
          ∧ content =
              map (entropy env)
                (seq (drawn w + k * Z.to_nat fileSize) (Z.to_nat fileSize)).
Proof.
  intros Hnf Hfs Hbs Hfuel Hnd.
  destruct (worker_faultless_run env fuel id fileSize bufferSize Hnf
              ltac:(lia) Hbs Hfuel jobs w Hnd) as (w' & Hw & Hall).
  exists w'. split; [done|]. intros k p Hk. eexists. split; [by apply Hall|].
  split; [|done]. unfold len. rewrite length_map, length_seq. lia.
Qed.

Lemma worker_faultless_files_witness :
  let jobs := [str ".out/file_1.bin"; str ".out/file_2.bin"] in
  ∃ w', worker calmEnv 6 0 jobs 5 2 emptyWorld = (Ret (), w')
    ∧ ∀ (k : nat) p, jobs !! k = Some p →
        ∃ content,
          files w' !! p = Some content
          ∧ len content = 5
          ∧ content =
              map (entropy calmEnv)
                (seq (drawn emptyWorld + k * Z.to_nat 5) (Z.to_nat 5)).
Proof.
  intros jobs.
  apply (worker_faultless_files calmEnv 6 0 jobs 5 2 emptyWorld).
  - by intros k.
  - unfold GoInt.max_int. lia.
  - lia.
  - simpl. lia.
  - subst jobs. apply NoDup_cons. split; [|apply NoDup_singleton].
    by rewrite list_elem_of_singleton.
Defined.

(** ** A whole run: producer, one worker, monitor *)

Lemma totalFiles_count startNum endNum :
  totalFiles startNum endNum = GoInt.wrap (endNum - startNum + 1).
Proof. unfold totalFiles, GoInt.add, GoInt.sub. apply wrap_add_l. Qed.

Lemma producer_plan fuel directory startNum endNum filesPerDir noSubdirs :
  GoInt.min_int ≤ startNum → startNum ≤ endNum + 1 → endNum < GoInt.max_int →
  noSubdirs = true ∨ filesPerDir ≠ 0 →
  (Z.to_nat (endNum - startNum + 1) < fuel)%nat →
  ∃ paths,
    producer fuel directory startNum endNum filesPerDir noSubdirs
    = (paths, Closed)
    ∧ Forall2 (λ i p, filePath directory i filesPerDir noSubdirs = Some p)
              (seqZ startNum (endNum - startNum + 1)) paths
    ∧ NoDup paths.
Proof.
  intros Hmin Hle Hmax Hf Hfuel.
  destruct (planned_paths directory filesPerDir noSubdirs
              (seqZ startNum (endNum - startNum + 1)) Hf) as [paths Hall].
  exists paths. split; [|split; [done|]].
  - apply (producer_range directory endNum filesPerDir noSubdirs Hmax
             (Z.to_nat (endNum - startNum + 1))); try done; try lia.
    by rewrite Z2Nat.id by lia.
  - eapply planned_paths_NoDup; [apply NoDup_seqZ|done].
Qed.

(** X17: the progress display ends at totalFiles.  For a range
    startNum..endNum (empty when startNum = endNum + 1) below the largest
    machine integer, the producer closes the queue, a worker that receives
    every path returns, and after the values it sent the monitor's count of
    completed files is the totalFiles of line 170 (endNum - startNum + 1 as
    a machine integer) and its byte total is totalFiles * fileSize in 64-bit
    arithmetic, whether or not files failed. *)
Theorem run_counts_totalFiles env fuelP fuelW id directory startNum endNum
    filesPerDir noSubdirs fileSize bufferSize w :
  GoInt.min_int ≤ startNum → startNum ≤ endNum + 1 → endNum < GoInt.max_int →
  noSubdirs = true ∨ filesPerDir ≠ 0 →
  0 ≤ fileSize ≤ GoInt.max_int → 0 < bufferSize →
  (Z.to_nat (endNum - startNum + 1) < fuelP)%nat →
  (Z.to_nat fileSize < fuelW)%nat →
  sent (trace w) = [] →
  ∃ paths w',
    producer fuelP directory startNum endNum filesPerDir noSubdirs
    = (paths, Closed)
    ∧ worker env fuelW id paths fileSize bufferSize w = (Ret (), w')
    ∧ completed (monitor (sent (trace w')) noStats)
      = totalFiles startNum endNum
    ∧ totalBytes (monitor (sent (trace w')) noStats)
      = GoInt.wrap (totalFiles startNum endNum * fileSize).
Proof.
  intros Hmin Hle Hmax Hf Hfs Hbs HfuelP HfuelW Hsent.
  destruct (producer_plan fuelP directory startNum endNum filesPerDir
              noSubdirs Hmin Hle Hmax Hf HfuelP) as (paths & Hprod & Hall & _).
  destruct (worker_runs env fuelW id fileSize bufferSize Hfs Hbs HfuelW paths w)
    as (rs & w' & Hw & Hlen & Htr & _ & _).
  exists paths, w'. split; [done|]. split; [done|].
  assert (sent (trace w') = concat (map (jobProgress fileSize) rs)) as ->.
  { by rewrite Htr, sent_app, (sent_jobs _ _ _ _ _ Hlen), Hsent. }
  destruct (monitor_jobs fileSize rs noStats noStats_in_range) as (H1 & H2 & _).
  assert (len rs = endNum - startNum + 1) as Hn.
  { unfold len. rewrite Hlen, <- (Forall2_length _ _ _ Hall), length_seqZ. lia. }
  rewrite H1, H2, Hn, totalFiles_count.
  change (completed noStats) with 0. change (totalBytes noStats) with 0.
  by rewrite !Z.add_0_l, wrap_mul_l.
Qed.

Lemma run_counts_totalFiles_witness :
  ∃ paths w',
    producer 4 (str ".out") 1 3 10000 false = (paths, Closed)
    ∧ worker entropyFailureEnv 6 0 paths 5 2 emptyWorld = (Ret (), w')
    ∧ completed (monitor (sent (trace w')) noStats) = totalFiles 1 3
    ∧ totalBytes (monitor (sent (trace w')) noStats)
      = GoInt.wrap (totalFiles 1 3 * 5).
Proof.
  apply (run_counts_totalFiles entropyFailureEnv 4 6 0 (str ".out") 1 3
           10000 false 5 2 emptyWorld).
  - unfold GoInt.min_int. lia.
  - lia.
  - unfold GoInt.max_int. lia.
  - right. lia.
  - unfold GoInt.max_int. lia.
  - lia.
  - simpl. lia.
  - simpl. lia.
  - done.
Defined.

(** X18: with no failing system call, a run over startNum..endNum with one
    worker leaves a file for every index of the range at the path the
    producer planned for it, holding exactly fileSize bytes: the bytes of
    the random source from position (i - startNum) * fileSize on. *)
Theorem run_creates_every_file env fuelP fuelW id directory startNum endNum
    filesPerDir noSubdirs fileSize bufferSize w :
  faultless env →
  GoInt.min_int ≤ startNum → startNum ≤ endNum → endNum < GoInt.max_int →
  noSubdirs = true ∨ filesPerDir ≠ 0 →
  0 < fileSize ≤ GoInt.max_int → 0 < bufferSize →
  (Z.to_nat (endNum - startNum + 1) < fuelP)%nat →
  (Z.to_nat fileSize < fuelW)%nat →
  ∃ paths w',
    producer fuelP directory startNum endNum filesPerDir noSubdirs
    = (paths, Closed)
    ∧ worker env fuelW id paths fileSize bufferSize w = (Ret (), w')
    ∧ ∀ i, startNum ≤ i ≤ endNum →
        ∃ p content,
          filePath directory i filesPerDir noSubdirs = Some p
          ∧ files w' !! p = Some content
          ∧ len content = fileSize
          ∧ content =
              map (entropy env)
                (seq (drawn w + Z.to_nat (i - startNum) * Z.to_nat fileSize)
                     (Z.to_nat fileSize)).
Proof.
  intros Hnf Hmin Hle Hmax Hf Hfs Hbs HfuelP HfuelW.
  destruct (producer_plan fuelP directory startNum endNum filesPerDir
              noSubdirs Hmin ltac:(lia) Hmax Hf HfuelP)
    as (paths & Hprod & Hall & Hnd).
  destruct (worker_faultless_run env fuelW id fileSize bufferSize Hnf
              ltac:(lia) Hbs HfuelW paths w Hnd) as (w' & Hw & Hfiles).
  exists paths, w'. split; [done|]. split; [done|]. intros i Hi.
  assert (seqZ startNum (endNum - startNum + 1) !! Z.to_nat (i - startNum)
          = Some i) as Hk by (apply lookup_seqZ; lia).
  destruct (Forall2_lookup_l _ _ _ _ _ Hall Hk) as (p & Hp & Hpath).
  eexists p, _. split; [done|]. split; [by apply Hfiles|]. split; [|done].
  unfold len. rewrite length_map, length_seq. lia.
Qed.

Lemma run_creates_every_file_witness :
  ∃ paths w',
    producer 4 (str ".out") 1 3 10000 false = (paths, Closed)
    ∧ worker calmEnv 6 0 paths 5 2 emptyWorld = (Ret (), w')
    ∧ ∀ i, 1 ≤ i ≤ 3 →
        ∃ p content,
          filePath (str ".out") i 10000 false = Some p
          ∧ files w' !! p = Some content
          ∧ len content = 5
          ∧ content =
              map (entropy calmEnv)
                (seq (drawn emptyWorld + Z.to_nat (i - 1) * Z.to_nat 5)
                     (Z.to_nat 5)).
Proof.
  apply (run_creates_every_file calmEnv 4 6 0 (str ".out") 1 3 10000 false
           5 2 emptyWorld).
  - by intros k.
  - unfold GoInt.min_int. lia.
  - lia.
  - unfold GoInt.max_int. lia.
  - right. lia.
  - unfold GoInt.max_int. lia.
  - lia.
  - simpl. lia.
  - simpl. lia.
Defined.

(** ** What main hands on *)

Lemma parseSize_in_range sizeStr v :
  parseSize sizeStr = inl v → GoInt.in_range v.
Proof.
  unfold parseSize.
  destruct (findUnit (normalize sizeStr) units) as [[value unit]|] eqn:E;
    [|done].
  destruct (findUnit_Some _ _ _ _ E) as (Hin & _ & _).
  destruct (strconv.Atoi _) as [n|e] eqn:EA; [|done].
  apply Atoi_inl in EA as [_ Hn].
  rewrite (unit_switch unit n Hin Hn). intros [= <-]. apply wrap_in_range.
Qed.

Lemma main_workers pageSize cpus f r :
  main pageSize cpus f = Generate r →
  numWorkers r = default (getOptimalWorkerCount cpus) (workersFlag f).
Proof.
  unfold main. case_match; [done|].
  destruct (parseSize _) as [sz|e]; [|done].
  case_match; [done|]. by intros [= <-].
Qed.

(** X19: main never starts a run that createRandomFile cannot carry out.
    Whenever main reaches createRandomDataFiles, the file size is a positive
    machine integer and the buffer size lies between 1 MiB and 16 MiB, so
    for every path and every state of the system each call of
    createRandomFile with the run's sizes returns (with or without an
    error) instead of panicking or looping forever. *)
Theorem main_request_runs pageSize cpus f r env fuel path w :
  main pageSize cpus f = Generate r →
  (Z.to_nat (fileSize r) < fuel)%nat →
  0 < fileSize r ≤ GoInt.max_int
  ∧ 1048576 ≤ bufferSize r ≤ 16777216
  ∧ ∃ res w',
      createRandomFile env fuel path (fileSize r) (bufferSize r) w
      = (Ret res, w').
Proof.
  intros Hmain Hfuel.
  destruct (main_generate _ _ _ _ Hmain)
    as (_ & _ & _ & _ & _ & Hsize & Hpos & _ & Hbuf & _).
  apply parseSize_in_range in Hsize.
  pose proof (getOptimalBufferSize_bounds pageSize) as Hb.
  assert (0 < fileSize r ≤ GoInt.max_int) as Hfs
    by (unfold GoInt.in_range in Hsize; lia).
  assert (1048576 ≤ bufferSize r ≤ 16777216) as Hbs.
  { rewrite Hbuf. unfold getOptimalBufferSize, minBufferSize, maxBufferSize.
    repeat case_match; lia. }
  split; [done|]. split; [done|].
  destruct (createRandomFile_returns env fuel path (fileSize r) (bufferSize r) w
              ltac:(lia) ltac:(lia) Hfuel) as (res & w' & Hrun & _).
  eauto.
Qed.

Lemma main_request_runs_witness :
  ∃ r, main 4096 8 sampleFlags = Generate r
    ∧ 0 < fileSize r ≤ GoInt.max_int
    ∧ 1048576 ≤ bufferSize r ≤ 16777216
    ∧ ∃ res w',
        createRandomFile calmEnv 1025 (str ".out/file_1.bin")
          (fileSize r) (bufferSize r) emptyWorld
        = (Ret res, w').
Proof.
  eexists. split; [by vm_compute|].
  apply (main_request_runs 4096 8 sampleFlags _ calmEnv 1025
           (str ".out/file_1.bin") emptyWorld).
  - by vm_compute.
  - simpl. lia.
Defined.

(** X20: when -workers is not given, main asks for the default worker
    count, which is at least 2 whatever the CPU count, and the start loop
    then starts exactly that many workers, with the ids 0, 1, ..., count - 1
    in this order. *)
Theorem main_default_workers pageSize cpus f r :
  workersFlag f = None → main pageSize cpus f = Generate r →
  numWorkers r = getOptimalWorkerCount cpus
  ∧ 2 ≤ numWorkers r
  ∧ len (startWorkers (numWorkers r) (fileSize r) (bufferSize r))
    = numWorkers r
  ∧ map (λ a, a.1.1) (startWorkers (numWorkers r) (fileSize r) (bufferSize r))
    = seqZ 0 (numWorkers r).
Proof.
  intros Hflag Hmain. apply main_workers in Hmain. rewrite Hflag in Hmain.
  simpl in Hmain. rewrite Hmain.
  assert (2 ≤ getOptimalWorkerCount cpus) as H2.
  { unfold getOptimalWorkerCount. case_match; lia. }
  split; [done|]. split; [done|]. unfold startWorkers, len. split.
  - rewrite length_map, length_seqZ. lia.
  - rewrite map_map. simpl. apply map_id.
Qed.

Lemma main_default_workers_witness :
  ∃ r, main 4096 8 sampleFlags = Generate r
    ∧ numWorkers r = getOptimalWorkerCount 8
    ∧ 2 ≤ numWorkers r
    ∧ len (startWorkers (numWorkers r) (fileSize r) (bufferSize r))
      = numWorkers r
    ∧ map (λ a, a.1.1) (startWorkers (numWorkers r) (fileSize r) (bufferSize r))
      = seqZ 0 (numWorkers r).
Proof.
  eexists. split; [by vm_compute|].
  apply (main_default_workers 4096 8 sampleFlags).
  - done.
  - by vm_compute.
Defined.

(** X21: main never looks at the value of -workers.  Whether main reaches
    createRandomDataFiles is the same for every value of the flag, given or
    not; and with -workers 0 the start loop starts no worker at all. *)
Theorem main_ignores_workers pageSize cpus f v :
  generates (main pageSize cpus (withWorkers v f))
  = generates (main pageSize cpus f)
  ∧ ∀ r, main pageSize cpus (withWorkers (Some 0) f) = Generate r →
      startWorkers (numWorkers r) (fileSize r) (bufferSize r) = [].
Proof.
  split.
  - unfold main, withWorkers. simpl. case_match; [done|].
    destruct (parseSize _) as [sz|e]; [|done]. by case_match.
  - intros r Hmain. apply main_workers in Hmain. simpl in Hmain.
    by rewrite Hmain.
Qed.

(** ** The sizes createRandomFile is not made for *)

(** X22: createRandomFile cannot do with a buffer size of zero or less.
    With no failing system call and a positive fileSize, a call with such a
    bufferSize never returns: a negative bufferSize panics when the buffer
    is allocated, and a zero bufferSize makes every chunk empty, so the
    loop never ends.  Either way the file has been created and stays empty,
    and no random byte is drawn. *)
Theorem createRandomFile_needs_positive_buffer env fuel path fileSize
    bufferSize w :
  faultless env → 0 < fileSize ≤ GoInt.max_int → bufferSize ≤ 0 →
  (createRandomFile env fuel path fileSize bufferSize w).1
  = (if bufferSize <? 0 then Panic else OutOfFuel)
  ∧ files (createRandomFile env fuel path fileSize bufferSize w).2 !! path
    = Some []
  ∧ drawn (createRandomFile env fuel path fileSize bufferSize w).2 = drawn w.
Proof.
  intros Hnf Hfs Hbs. unfold createRandomFile, MkdirAll, Create.
  pose proof (sysCall_faultless env
                (record (EvCall path fileSize bufferSize) w) Hnf) as H1.
  destruct (sysCall env _) as [[os|] w1] eqn:Hc1; [done|].
  apply sysCall_ok in Hc1 as (_ & _ & Hd1). simpl in Hd1.
  pose proof (sysCall_faultless env w1 Hnf) as H2.
  destruct (sysCall env w1) as [[os|] w2] eqn:Hc2; [done|].
  apply sysCall_ok in Hc2 as (_ & _ & Hd2).
  destruct (Z.ltb_spec bufferSize 0) as [Hneg|Hzero].
  { simpl. rewrite lookup_insert_eq, Hd2, Hd1. done. }
  assert (bufferSize = 0) as -> by lia.
  match goal with
  | |- context [chunkLoop env fuel path 0 fileSize ?buf ?b ?w3] =>
      destruct (chunkLoop_zero_buffer env fuel path fileSize buf b w3
                  Hnf Hfs ltac:(by vm_compute)) as (Hout & Hfiles & Hdrawn);
      destruct (chunkLoop env fuel path 0 fileSize buf b w3) as [[o b4] w4]
  end.
  simpl in Hout, Hfiles, Hdrawn. rewrite Hout. simpl.
  rewrite Hfiles, Hdrawn. simpl. rewrite lookup_insert_eq, Hd2, Hd1. done.
Qed.

Lemma createRandomFile_needs_positive_buffer_witness :
  (createRandomFile calmEnv 6 (str ".out/file_1.bin") 5 0 emptyWorld).1
  = (if 0 <? 0 then Panic else OutOfFuel)
  ∧ files (createRandomFile calmEnv 6 (str ".out/file_1.bin") 5 0
             emptyWorld).2 !! str ".out/file_1.bin"
    = Some []
  ∧ drawn (createRandomFile calmEnv 6 (str ".out/file_1.bin") 5 0
             emptyWorld).2 = drawn emptyWorld.
Proof.
  apply (createRandomFile_needs_positive_buffer calmEnv 6
           (str ".out/file_1.bin") 5 0 emptyWorld).
  - by intros k.
  - unfold GoInt.max_int. lia.
  - lia.
Defined.



Lemma main_ignores_workers_witness :
  generates (main 4096 8 (withWorkers (Some 0) sampleFlags))
  = generates (main 4096 8 sampleFlags)
  ∧ ∃ r, main 4096 8 (withWorkers (Some 0) sampleFlags) = Generate r
      ∧ startWorkers (numWorkers r) (fileSize r) (bufferSize r) = [].
Proof.
  destruct (main_ignores_workers 4096 8 sampleFlags (Some 0)) as [H1 H2].
  split; [exact H1|]. eexists. split; [by vm_compute|].
  apply H2. by vm_compute.
Defined.
